(** * bin-diff: a shallow embedding of the sequence view, the patch record and
    the recursive middle-snake diff engine, with the properties of the
    specification stated and settled against it.

    Source files embedded here:
    - [include/sequence_view.hpp]: [sequence_view] and [combine];
    - the [patch] class ([make_addition], [make_deletion]);
    - [namespace diff]: the constructor of class [_diff] and the function
      [diff] (the current engine);
    - [class Diff] of the first revision, whose [_diff] returns its patches
      by value (module [Diff] below).

    Conventions.  [size_t] is 64 bits wide, [uint32_t] and [int32_t] are 32
    bits wide; the conversions between them are written out with [usize],
    [u32] and [i32], and so are the two initialisers [max_len] and
    [x_values_len], reduced to 32 bits as two's-complement hardware does.
    The counters and coordinates of the loops are kept in [Z]: on inputs
    that fit (see [fits] and [sizes_fit]) none of them leaves the range of
    [int32_t].  The remainder operator [%] of C++ truncates towards zero: it
    is [Z.rem], and the division [/] is [Z.quot].  An access to a
    [std::vector] outside [0, size) and a read of a buffer outside its cells
    have no defined behaviour in C++; the embedding stops there with a
    [fault].

    The second revision of [class Diff] (the one whose [_diff] appends to a
    vector passed by reference) has the loops and the base cases of the
    current engine and is not embedded separately. *)

From Stdlib Require Import ZArith String Ascii List Bool Lia.
From Stdlib Require DecimalString DecimalN.
Import ListNotations.

Local Open Scope Z_scope.

(** ** Outcomes: a result or the fault that stopped the run *)

Inductive fault : Type :=
| Out_of_range (index size : Z)   (* std::vector::operator[] outside [0, size) *)
| Bad_read (index : Z)            (* read of a buffer outside its cells *)
| Length_error (requested : Z)    (* std::vector constructed with a negative length *)
| Out_of_fuel.                    (* the recursion budget of the embedding ran out *)

Inductive outcome (A : Type) : Type :=
| Done (a : A)
| Fault (f : fault).

Arguments Done {A} a.
Arguments Fault {A} f.

Definition bind {A B : Type} (c : outcome A) (k : A -> outcome B) : outcome B :=
  match c with
  | Done a => k a
  | Fault f => Fault f
  end.

Notation "x <- c ;; k" := (bind c (fun x => k))
  (at level 61, c at next level, right associativity).
Notation "' pat <- c ;; k" := (bind c (fun x => match x with pat => k end))
  (at level 61, pat pattern, c at next level, right associativity).

(** ** Machine integers *)

Definition u32 (z : Z) : Z := z mod 2 ^ 32.
Definition usize (z : Z) : Z := z mod 2 ^ 64.
Definition i32 (z : Z) : Z := (z + 2 ^ 31) mod 2 ^ 32 - 2 ^ 31.

(** ** Buffers and pointers

    A pointer is null or designates a buffer; the buffer is identified by its
    address and carries the cells it holds (the backing sequence is never
    modified while it is viewed).  Two pointers are equal when both are null
    or both hold the same address. *)

Record buffer : Type := mk_buffer { addr : Z; cells : list ascii }.

Definition pointer : Type := option buffer.

Definition ptr_eqb (p q : pointer) : bool :=
  match p, q with
  | None, None => true
  | Some b, Some c => addr b =? addr c
  | _, _ => false
  end.

(** [s.c_str()]: the characters of [s] followed by the terminating NUL. *)
Definition c_str (a : Z) (s : string) : pointer :=
  Some (mk_buffer a (list_ascii_of_string s ++ [zero])).

(** [p[i]] *)
Definition deref (p : pointer) (i : Z) : outcome ascii :=
  match p with
  | None => Fault (Bad_read i)
  | Some b =>
      if (0 <=? i) && (i <? Z.of_nat (length (cells b)))
      then match nth_error (cells b) (Z.to_nat i) with
           | Some c => Done c
           | None => Fault (Bad_read i)
           end
      else Fault (Bad_read i)
  end.

(** ** sequence_view *)

Record sequence_view : Type := mk_view {
  m_seq : pointer;
  m_view_index_begin : Z;
  m_view_index_end : Z
}.

(** [sequence_view()] *)
Definition null_view : sequence_view := mk_view None 0 0.

(** [sequence_view(t_sequenced_type* seq, uint32_t begin, uint32_t end)] *)
Definition view_of (seq : pointer) (begin_ end_ : Z) : sequence_view :=
  mk_view seq (u32 begin_) (u32 end_).

(** [sequence_view(const sequence_view& seq, uint32_t begin, uint32_t end)] *)
Definition sub_view (seq : sequence_view) (begin_ end_ : Z) : sequence_view :=
  mk_view (m_seq seq)
          (usize (m_view_index_begin seq + u32 begin_))
          (usize (m_view_index_begin seq + u32 end_)).

Definition size (v : sequence_view) : Z :=
  usize (m_view_index_end v - m_view_index_begin v).

Definition index_begin (v : sequence_view) : Z := m_view_index_begin v.
Definition index_end (v : sequence_view) : Z := m_view_index_end v.

(** [operator[]] *)
Definition at_ (v : sequence_view) (i : Z) : outcome ascii :=
  deref (m_seq v) (usize (m_view_index_begin v + i)).

(** The two ways [combine] throws.  The source throws [std::exception] in
    both; the names follow its two comments. *)
Inductive combine_error : Type :=
| IncompatibleSequence   (* "Cannot combine sequences with different super sequences" *)
| NonAdjacentRange.      (* "Cannot combine sequences that do not succeed eachother" *)

Definition combine (this other : sequence_view) : combine_error + sequence_view :=
  if negb (ptr_eqb (m_seq this) (m_seq other)) then inl IncompatibleSequence
  else if (m_view_index_end this >=? m_view_index_begin other)
          || (m_view_index_end other >=? m_view_index_begin this)
  then inr (view_of (m_seq this)
                    (Z.min (m_view_index_begin this) (m_view_index_begin other))
                    (Z.max (m_view_index_end this) (m_view_index_end other)))
  else inl NonAdjacentRange.

(** ** patch *)

Inductive patch_operation : Type := Addition | Deletion.

Record patch : Type := mk_patch {
  m_op : patch_operation;
  m_begin : Z;
  m_str : string
}.

(** [std::string(std::cbegin(seq), seq.size())]: [n] characters read from
    [&m_seq[m_view_index_begin]] on. *)
Fixpoint read_chars (p : pointer) (from : Z) (n : nat) : outcome (list ascii) :=
  match n with
  | O => Done []
  | S n' =>
      c <- deref p from ;;
      cs <- read_chars p (from + 1) n' ;;
      Done (c :: cs)
  end.

Definition payload (seq : sequence_view) : outcome string :=
  cs <- read_chars (m_seq seq) (m_view_index_begin seq) (Z.to_nat (size seq)) ;;
  Done (string_of_list_ascii cs).

Definition make_addition (seq : sequence_view) : outcome patch :=
  str <- payload seq ;;
  Done (mk_patch Addition (index_begin seq) str).

Definition make_deletion (seq : sequence_view) : outcome patch :=
  str <- payload seq ;;
  Done (mk_patch Deletion (index_begin seq) str).

(** [GetOperation()] *)
Definition GetOperation (p : patch) : patch_operation := m_op p.

(** ** Printing

    Both [operator<<] are embedded by the text they append to the stream.
    A [size_t] is written in decimal, without sign or padding. *)

Definition decimal (z : Z) : string :=
  DecimalString.NilEmpty.string_of_uint (N.to_uint (Z.to_N z)).

(** [operator<<] of [sequence_view]: the cells from [m_view_index_begin] up
    to, not including, [m_view_index_end], or a fixed text for a null view.
    The loop [for (i = begin; i < end; i++)] runs [end - begin] times, and
    not at all when [end <= begin]. *)
Definition print_view (seq : sequence_view) : outcome string :=
  match m_seq seq with
  | Some _ =>
      cs <- read_chars (m_seq seq) (m_view_index_begin seq)
                       (Z.to_nat (m_view_index_end seq - m_view_index_begin seq)) ;;
      Done (string_of_list_ascii cs)
  | None => Done "Null sequence"%string
  end.

(** [operator<<] of [patch].  The operation is one of the two enumerators,
    so the branch that writes "Undefined" has no counterpart. *)
Definition print_patch (p : patch) : string :=
  ("Patch "
   ++ match m_op p with Addition => "Addition" | Deletion => "Deletion" end
   ++ ": [" ++ decimal (m_begin p)
   ++ ":" ++ decimal (usize (m_begin p + Z.of_nat (String.length (m_str p))))
   ++ "] - " ++ m_str p)%string.

(** ** std::vector<int32_t> *)

Definition vec : Type := list Z.

(** [std::vector<int32_t>(n, 0)] with [n] an [int32_t] *)
Definition vec_make (n : Z) : outcome vec :=
  if n <? 0 then Fault (Length_error n) else Done (repeat 0 (Z.to_nat n)).

Definition vec_get (v : vec) (i : Z) : outcome Z :=
  if (0 <=? i) && (i <? Z.of_nat (length v))
  then Done (nth (Z.to_nat i) v 0)
  else Fault (Out_of_range i (Z.of_nat (length v))).

Fixpoint list_set (v : vec) (n : nat) (x : Z) : vec :=
  match v, n with
  | [], _ => []
  | _ :: t, O => x :: t
  | h :: t, S n' => h :: list_set t n' x
  end.

Definition vec_set (v : vec) (i : Z) (x : Z) : outcome vec :=
  if (0 <=? i) && (i <? Z.of_nat (length v))
  then Done (list_set v (Z.to_nat i) x)
  else Fault (Out_of_range i (Z.of_nat (length v))).

(** ** The diff engine: one invocation of [_diff]

    What one invocation decides once the two searches overlap: split the
    problem at the middle snake, hand a residual tail to a leaf call, or stop
    because nothing is left. *)

Inductive verdict : Type :=
| Split (x y u v : Z)
| Tail_addition
| Tail_deletion
| Nothing_left.

Section Invocation.

Variables lhs_seq rhs_seq : sequence_view.
Variables lhs_size rhs_size max_len x_values_len w : Z.

(** The choice of [x] at diagonal [k] of depth [D], from one rolling array:
    the [if]/[else] that opens the body of both inner loops.  The
    disjunction and the conjunction of the test evaluate their right
    operand only when needed. *)
Definition candidate (best_x_values : vec) (D k : Z) : outcome Z :=
  down <- (if k =? - D then Done true
           else if negb (k =? D) then
             a <- vec_get best_x_values (Z.rem (k - 1) x_values_len) ;;
             b <- vec_get best_x_values (Z.rem (k + 1) x_values_len) ;;
             Done (a <? b)
           else Done false) ;;
  if down : bool then vec_get best_x_values (Z.rem (k + 1) x_values_len)
  else a <- vec_get best_x_values (Z.rem (k - 1) x_values_len) ;;
       Done (a + 1).

(** The forward search chooses from [best_forward_x_values], the backward
    search from [best_backward_x_values]. *)
Definition forward_candidate (best_forward_x_values best_backward_x_values : vec)
  : Z -> Z -> outcome Z := candidate best_forward_x_values.
Definition backward_candidate (best_forward_x_values best_backward_x_values : vec)
  : Z -> Z -> outcome Z := candidate best_backward_x_values.

(** [while (x < lhs_size && y < rhs_size && lhs_seq[x] == rhs_seq[y])] *)
Fixpoint forward_snake (n : nat) (x y : Z) : outcome (Z * Z) :=
  if (x <? lhs_size) && (y <? rhs_size) then
    a <- at_ lhs_seq x ;;
    b <- at_ rhs_seq y ;;
    if Ascii.eqb a b then
      match n with
      | O => Fault Out_of_fuel
      | S n' => forward_snake n' (x + 1) (y + 1)
      end
    else Done (x, y)
  else Done (x, y).

(** [while (x < lhs_size && y < rhs_size &&
           lhs_seq[lhs_size - x - 1] == rhs_seq[rhs_size - y - 1])] *)
Fixpoint backward_snake (n : nat) (x y : Z) : outcome (Z * Z) :=
  if (x <? lhs_size) && (y <? rhs_size) then
    a <- at_ lhs_seq (lhs_size - x - 1) ;;
    b <- at_ rhs_seq (rhs_size - y - 1) ;;
    if Ascii.eqb a b then
      match n with
      | O => Fault Out_of_fuel
      | S n' => backward_snake n' (x + 1) (y + 1)
      end
    else Done (x, y)
  else Done (x, y).

(** The [if]/[else if] chain entered once the searches overlap; [D] is the
    value the source has just stored in its loop variable. *)
Definition decide (D x y u v : Z) : verdict :=
  if (D >? 1) || (negb (x =? u) && negb (y =? v)) then Split x y u v
  else if rhs_size >? lhs_size then Tail_addition
  else if rhs_size <? lhs_size then Tail_deletion
  else Nothing_left.

(** The forward inner loop, from diagonal [k] on. *)
Fixpoint forward_loop (n : nat) (D k : Z) (best_forward_x_values best_backward_x_values : vec)
  : outcome (vec * option verdict) :=
  if k <? D - 2 * Z.max 0 (D - lhs_size) + 1 then
    match n with
    | O => Fault Out_of_fuel
    | S n' =>
        x_initial <- forward_candidate best_forward_x_values best_backward_x_values D k ;;
        let y_initial := x_initial - k in
        '(x, y) <- forward_snake (Z.to_nat (lhs_size - x_initial)) x_initial y_initial ;;
        best_forward_x_values <- vec_set best_forward_x_values (Z.rem k x_values_len) x ;;
        let z := - (k - w) in
        overlap <- (if (Z.rem max_len 2 =? 1) && (z >=? - (D - 1)) && (z <=? D - 1) then
                      a <- vec_get best_forward_x_values (Z.rem k x_values_len) ;;
                      b <- vec_get best_backward_x_values (Z.rem z x_values_len) ;;
                      Done (a + b >=? lhs_size)
                    else Done false) ;;
        if overlap : bool
        then Done (best_forward_x_values, Some (decide (2 * D - 1) x_initial y_initial x y))
        else forward_loop n' D (k + 2) best_forward_x_values best_backward_x_values
    end
  else Done (best_forward_x_values, None).

(** The backward inner loop, from diagonal [k] on. *)
Fixpoint backward_loop (n : nat) (D k : Z) (best_forward_x_values best_backward_x_values : vec)
  : outcome (vec * option verdict) :=
  if k <? D - 2 * Z.max 0 (D - lhs_size) + 1 then
    match n with
    | O => Fault Out_of_fuel
    | S n' =>
        x_initial <- backward_candidate best_forward_x_values best_backward_x_values D k ;;
        let y_initial := x_initial - k in
        '(x, y) <- backward_snake (Z.to_nat (lhs_size - x_initial)) x_initial y_initial ;;
        best_backward_x_values <- vec_set best_backward_x_values (Z.rem k x_values_len) x ;;
        let z := - (k - w) in
        overlap <- (if (Z.rem max_len 2 =? 0) && (z >=? - D) && (z <=? D) then
                      a <- vec_get best_backward_x_values (Z.rem k x_values_len) ;;
                      b <- vec_get best_forward_x_values (Z.rem z x_values_len) ;;
                      Done (a + b >=? lhs_size)
                    else Done false) ;;
        if overlap : bool
        then Done (best_backward_x_values,
                   Some (decide (2 * D) (lhs_size - x) (rhs_size - y)
                                (lhs_size - x_initial) (rhs_size - y_initial)))
        else backward_loop n' D (k + 2) best_forward_x_values best_backward_x_values
    end
  else Done (best_backward_x_values, None).

(** First diagonal and number of diagonals visited by an inner loop. *)
Definition first_k (D : Z) : Z := - (D - 2 * Z.max 0 (D - rhs_size)).
Definition k_budget (D : Z) : nat :=
  Z.to_nat (D - 2 * Z.max 0 (D - lhs_size) + 1 - first_k D).

(** [(max_len / 2 + (max_len % 2 != 0)) + 1] *)
Definition depth_bound : Z :=
  Z.quot max_len 2 + (if negb (Z.rem max_len 2 =? 0) then 1 else 0) + 1.

(** The outer loop, from depth [D] on.  Besides the verdict it reports how
    many iterations of the outer loop were begun. *)
Fixpoint depth_loop (n : nat) (D : Z) (best_forward_x_values best_backward_x_values : vec)
  : outcome (Z * option verdict) :=
  if D <? depth_bound then
    match n with
    | O => Fault Out_of_fuel
    | S n' =>
        '(best_forward_x_values, r) <-
           forward_loop (k_budget D) D (first_k D)
                        best_forward_x_values best_backward_x_values ;;
        match r with
        | Some v => Done (D + 1, Some v)
        | None =>
            '(best_backward_x_values, r) <-
               backward_loop (k_budget D) D (first_k D)
                             best_forward_x_values best_backward_x_values ;;
            match r with
            | Some v => Done (D + 1, Some v)
            | None => depth_loop n' (D + 1) best_forward_x_values best_backward_x_values
            end
        end
    end
  else Done (D, None).

(** The body of [if (lhs_size > 0 && rhs_size > 0)] up to the decision. *)
Definition search : outcome (Z * option verdict) :=
  best_forward_x_values <- vec_make x_values_len ;;
  best_backward_x_values <- vec_make x_values_len ;;
  depth_loop (Z.to_nat depth_bound) 0 best_forward_x_values best_backward_x_values.

End Invocation.

(** The member initialisers of the constructor. *)
Definition lhs_size_of (lhs_seq : sequence_view) : Z := i32 (size lhs_seq).
Definition rhs_size_of (rhs_seq : sequence_view) : Z := i32 (size rhs_seq).
Definition max_len_of (lhs_seq rhs_seq : sequence_view) : Z :=
  i32 (lhs_size_of lhs_seq + rhs_size_of rhs_seq).
Definition x_values_len_of (lhs_seq rhs_seq : sequence_view) : Z :=
  i32 (2 * Z.min (lhs_size_of lhs_seq) (rhs_size_of rhs_seq) + 2).

Definition search_views (lhs_seq rhs_seq : sequence_view) : outcome (Z * option verdict) :=
  search lhs_seq rhs_seq (lhs_size_of lhs_seq) (rhs_size_of rhs_seq)
         (max_len_of lhs_seq rhs_seq) (x_values_len_of lhs_seq rhs_seq)
         (lhs_size_of lhs_seq - rhs_size_of rhs_seq).

(** ** [diff::_diff] and [diff::diff] (the current engine)

    The constructor of [_diff] appends to the vector it is given; the
    recursion budget [fuel] counts nested constructor calls. *)

Fixpoint _diff (fuel : nat) (lhs_seq rhs_seq : sequence_view) (patches : list patch)
  : outcome (list patch) :=
  match fuel with
  | O => Fault Out_of_fuel
  | S fuel' =>
      let lhs_size := lhs_size_of lhs_seq in
      let rhs_size := rhs_size_of rhs_seq in
      if (lhs_size >? 0) && (rhs_size >? 0) then
        '(_, r) <- search_views lhs_seq rhs_seq ;;
        match r with
        | Some (Split x y u v) =>
            patches <- _diff fuel' (sub_view lhs_seq 0 x) (sub_view rhs_seq 0 y) patches ;;
            _diff fuel' (sub_view lhs_seq u lhs_size) (sub_view rhs_seq v rhs_size) patches
        | Some Tail_addition =>
            _diff fuel' null_view (sub_view rhs_seq lhs_size rhs_size) patches
        | Some Tail_deletion =>
            _diff fuel' (sub_view lhs_seq rhs_size lhs_size) null_view patches
        | Some Nothing_left => Done patches
        | None => Done patches
        end
      else if lhs_size >? 0 then
        p <- make_deletion lhs_seq ;;
        Done (patches ++ [p])
      else if rhs_size >? 0 then
        p <- make_addition rhs_seq ;;
        Done (patches ++ [p])
      else Done patches
  end.

(** Addresses of the two string buffers; the engine never compares pointers. *)
Definition lhs_addr : Z := 1.
Definition rhs_addr : Z := 2.

Definition string_size (s : string) : Z := Z.of_nat (String.length s).

(** The recursion budget given to a top-level call: one more than the
    combined length, plus one for a leaf. *)
Definition fuel_for (lhs rhs : string) : nat :=
  2 + String.length lhs + String.length rhs.

(** [sequence_view(s.c_str(), 0, s.size())] *)
Definition string_view (a : Z) (s : string) : sequence_view :=
  view_of (c_str a s) 0 (string_size s).

Definition diff (lhs rhs : string) : outcome (list patch) :=
  _diff (fuel_for lhs rhs) (string_view lhs_addr lhs) (string_view rhs_addr rhs) [].

(** ** [Diff::_diff] and [Diff::diff] of the first revision

    The loops are those of the current engine; the patches are returned by
    value, and the last [else] is taken whenever [lhs_size] is not
    positive. *)

Module Diff.

Fixpoint _diff (fuel : nat) (lhs_seq rhs_seq : sequence_view) : outcome (list patch) :=
  match fuel with
  | O => Fault Out_of_fuel
  | S fuel' =>
      let lhs_size := lhs_size_of lhs_seq in
      let rhs_size := rhs_size_of rhs_seq in
      if (lhs_size >? 0) && (rhs_size >? 0) then
        '(_, r) <- search_views lhs_seq rhs_seq ;;
        match r with
        | Some (Split x y u v) =>
            forward_subdiff <- _diff fuel' (sub_view lhs_seq 0 x) (sub_view rhs_seq 0 y) ;;
            backward_subdiff <-
              _diff fuel' (sub_view lhs_seq u lhs_size) (sub_view rhs_seq v rhs_size) ;;
            Done (forward_subdiff ++ backward_subdiff)
        | Some Tail_addition =>
            _diff fuel' null_view (sub_view rhs_seq lhs_size rhs_size)
        | Some Tail_deletion =>
            _diff fuel' (sub_view lhs_seq rhs_size lhs_size) null_view
        | Some Nothing_left => Done []
        | None => Done []
        end
      else if lhs_size >? 0 then
        p <- make_deletion lhs_seq ;;
        Done [p]
      else
        p <- make_addition rhs_seq ;;
        Done [p]
  end.

Definition diff (lhs rhs : string) : outcome (list patch) :=
  _diff (fuel_for lhs rhs) (string_view lhs_addr lhs) (string_view rhs_addr rhs).

End Diff.

(** ** Reference notions used to state the properties

    Neither is part of the program: the first replays a patch list on the
    left string, the second is the insert-and-delete edit distance given by
    the usual recurrence. *)

Definition chars (s : string) : list ascii := list_ascii_of_string s.

Definition list_eqb (a b : list ascii) : bool :=
  if list_eq_dec ascii_dec a b then true else false.

(** [i] is the position reached in the left string, [out] the part of the
    right string rebuilt so far.  A deletion at left offset [o] first copies
    the left characters before [o], then skips its payload; an addition at
    right offset [o] first copies left characters until [out] is [o] long,
    then appends its payload. *)
Fixpoint replay (ps : list patch) (left : list ascii) (i : nat) (out : list ascii)
  : option (list ascii) :=
  match ps with
  | [] => Some (out ++ skipn i left)
  | p :: ps' =>
      let seq := chars (m_str p) in
      let o := Z.to_nat (m_begin p) in
      match m_op p with
      | Deletion =>
          if (i <=? o)%nat && list_eqb (firstn (length seq) (skipn o left)) seq
          then replay ps' left (o + length seq) (out ++ firstn (o - i) (skipn i left))
          else None
      | Addition =>
          let gap := (o - length out)%nat in
          if (length out <=? o)%nat && (i + gap <=? length left)%nat
          then replay ps' left (i + gap) (out ++ firstn gap (skipn i left) ++ seq)
          else None
      end
  end.

Definition apply_patches (ps : list patch) (left : string) : option string :=
  match replay ps (chars left) 0 [] with
  | Some out => Some (string_of_list_ascii out)
  | None => None
  end.

Definition total_payload (ps : list patch) : nat :=
  fold_right (fun p n => (String.length (m_str p) + n)%nat) 0%nat ps.

Fixpoint edit_distance_list (l r : list ascii) : nat :=
  match l with
  | [] => length r
  | a :: l' =>
      (fix inner (r : list ascii) : nat :=
         match r with
         | [] => length l
         | b :: r' =>
             if Ascii.eqb a b then edit_distance_list l' r'
             else S (Nat.min (edit_distance_list l' r) (inner r'))
         end) r
  end.

Definition edit_distance (l r : string) : nat := edit_distance_list (chars l) (chars r).

(** A string whose length leaves the [int32_t] initialisers of the engine
    exact: [2 * length + 2] is below [2 ^ 31]. *)
Definition fits (s : string) : Prop := string_size s < 2 ^ 30 - 1.

(** [reads v n f]: the first [n] positions of the view [v] can be read, and
    hold the characters [f 0], ..., [f (n - 1)]. *)
Definition reads (v : sequence_view) (n : Z) (f : Z -> ascii) : Prop :=
  forall i, 0 <= i < n -> at_ v i = Done (f i).

(** The character of [s] at position [i]. *)
Definition char_at (s : string) (i : Z) : ascii := nth (Z.to_nat i) (chars s) zero.

(** The sizes of two views leave the initialisers of an invocation exact. *)
Definition sizes_fit (lhs_seq rhs_seq : sequence_view) : Prop :=
  0 < size lhs_seq < 2 ^ 30 - 1 /\ 0 < size rhs_seq < 2 ^ 30 - 1.

(** The invariant of the patch record. *)
Definition has_payload (p : patch) : Prop := m_str p <> EmptyString.

(** The outcome of [diff] in closed form; [diff_behaviour] below proves that
    the engine computes it on every pair of strings that fits. *)
Definition diff_expected (l r : string) : outcome (list patch) :=
  if string_dec l EmptyString then
    if string_dec r EmptyString then Done [] else Done [mk_patch Addition 0 r]
  else if string_dec r EmptyString then Done [mk_patch Deletion 0 l]
  else if string_dec l r then Done []
  else Fault (Out_of_range (-1) (2 * Z.min (string_size l) (string_size r) + 2)).

(** A string of [2 ^ 30 - 1] symbols, the shortest one that does not fit. *)
Definition huge_string : string :=
  string_of_list_ascii (repeat "a"%char (Z.to_nat (2 ^ 30 - 1))).


(** A view that lies inside the cells of a buffer. *)
Definition within_buffer (seq : sequence_view) (b : buffer) : Prop :=
  m_seq seq = Some b /\
  0 <= m_view_index_begin seq <= m_view_index_end seq /\
  m_view_index_end seq <= Z.of_nat (length (cells b)) /\
  m_view_index_end seq < 2 ^ 64.

(** The cells a view covers. *)
Definition window (seq : sequence_view) (b : buffer) : list ascii :=
  firstn (Z.to_nat (m_view_index_end seq - m_view_index_begin seq))
         (skipn (Z.to_nat (m_view_index_begin seq)) (cells b)).

(** * Properties *)

(** The outcome of a comparison of the source, when linear arithmetic
    settles it: used as [replace (a <? b) with true by arith_test]. *)
Ltac arith_test :=
  symmetry;
  first [ apply Z.ltb_lt; lia | apply Z.ltb_ge; lia
        | apply Z.leb_le; lia | apply Z.leb_gt; lia
        | apply Z.eqb_neq; lia
        | rewrite Z.gtb_ltb; apply Z.ltb_lt; lia
        | rewrite Z.gtb_ltb; apply Z.ltb_ge; lia
        | rewrite Z.geb_leb; apply Z.leb_le; lia
        | rewrite Z.geb_leb; apply Z.leb_gt; lia ].

(** ** Machine integers and vectors *)

Lemma u32_small (z : Z) : 0 <= z < 2 ^ 32 -> u32 z = z.
Proof. intros H. unfold u32. apply Z.mod_small. exact H. Qed.

Lemma usize_small (z : Z) : 0 <= z < 2 ^ 64 -> usize z = z.
Proof. intros H. unfold usize. apply Z.mod_small. exact H. Qed.

Lemma i32_small (z : Z) : - 2 ^ 31 <= z < 2 ^ 31 -> i32 z = z.
Proof.
  intros H. unfold i32. rewrite Z.mod_small; lia.
Qed.

Lemma usize_range (z : Z) : 0 <= usize z < 2 ^ 64.
Proof. unfold usize. apply Z.mod_pos_bound. lia. Qed.

(** The index [k % len] of a diagonal [k] between [-len] and [0] is [k]
    itself: the remainder of C++ keeps the sign of [k]. *)
Lemma rem_negative_diagonal (k len : Z) : - len < k < 0 -> Z.rem k len = k.
Proof.
  intros H. replace k with (- (- k)) at 1 by lia.
  rewrite Z.rem_opp_l by lia. rewrite Z.rem_small by lia. lia.
Qed.

Lemma list_set_length (v : vec) (n : nat) (x : Z) : length (list_set v n x) = length v.
Proof.
  revert n. induction v as [|h t IH]; intros [|n]; simpl; auto.
Qed.

Lemma list_set_nth_same (v : vec) (n : nat) (x : Z) :
  (n < length v)%nat -> nth n (list_set v n x) 0 = x.
Proof.
  revert n. induction v as [|h t IH]; intros [|n] H; simpl in *; try lia; auto.
  apply IH. lia.
Qed.

Lemma list_set_nth_other (v : vec) (n m : nat) (x : Z) :
  n <> m -> nth m (list_set v n x) 0 = nth m v 0.
Proof.
  revert n m. induction v as [|h t IH]; intros [|n] [|m] H; simpl; auto; try lia.
Qed.

Lemma vec_get_in (v : vec) (i : Z) :
  0 <= i < Z.of_nat (length v) -> vec_get v i = Done (nth (Z.to_nat i) v 0).
Proof.
  intros H. unfold vec_get.
  replace ((0 <=? i) && (i <? Z.of_nat (length v))) with true; [reflexivity|].
  symmetry. apply andb_true_iff. split; [apply Z.leb_le | apply Z.ltb_lt]; lia.
Qed.

Lemma vec_set_in (v : vec) (i x : Z) :
  0 <= i < Z.of_nat (length v) -> vec_set v i x = Done (list_set v (Z.to_nat i) x).
Proof.
  intros H. unfold vec_set.
  replace ((0 <=? i) && (i <? Z.of_nat (length v))) with true; [reflexivity|].
  symmetry. apply andb_true_iff. split; [apply Z.leb_le | apply Z.ltb_lt]; lia.
Qed.

Lemma vec_set_negative (v : vec) (i x : Z) :
  i < 0 -> vec_set v i x = Fault (Out_of_range i (Z.of_nat (length v))).
Proof.
  intros H. unfold vec_set.
  replace (0 <=? i) with false; [reflexivity|].
  symmetry. apply Z.leb_gt. exact H.
Qed.

Lemma vec_make_nonneg (n : Z) : 0 <= n -> vec_make n = Done (repeat 0 (Z.to_nat n)).
Proof.
  intros H. unfold vec_make.
  replace (n <? 0) with false; [reflexivity|].
  symmetry. apply Z.ltb_ge. exact H.
Qed.

Lemma vec_get_fresh (n i : Z) :
  0 <= i < n -> vec_get (repeat 0 (Z.to_nat n)) i = Done 0.
Proof.
  intros H. rewrite vec_get_in by (rewrite repeat_length; lia).
  f_equal. apply nth_repeat.
Qed.

(** ** combine *)

(** Views over different buffers, and only those, are refused as
    incompatible. *)
Lemma combine_incompatible_iff (a b : sequence_view) :
  combine a b = inl IncompatibleSequence <-> ptr_eqb (m_seq a) (m_seq b) = false.
Proof.
  unfold combine. destruct (ptr_eqb (m_seq a) (m_seq b)); simpl.
  - split; [|discriminate].
    destruct ((_ >=? _) || (_ >=? _)); discriminate.
  - split; reflexivity.
Qed.

(** A successful [combine] spans from the smaller begin to the larger end. *)
Lemma combine_success_range (a b c : sequence_view) :
  combine a b = inr c ->
  c = view_of (m_seq a)
              (Z.min (m_view_index_begin a) (m_view_index_begin b))
              (Z.max (m_view_index_end a) (m_view_index_end b)).
Proof.
  unfold combine.
  destruct (negb (ptr_eqb (m_seq a) (m_seq b))); [discriminate|].
  destruct ((_ >=? _) || (_ >=? _)); [|discriminate].
  intros H. injection H as <-. reflexivity.
Qed.

(** The second test of [combine] is a disjunction, and one of its sides holds
    for any two ranges with [begin <= end]: the last branch is never taken. *)
Lemma combine_never_non_adjacent (a b : sequence_view) :
  m_view_index_begin a <= m_view_index_end a ->
  m_view_index_begin b <= m_view_index_end b ->
  combine a b <> inl NonAdjacentRange.
Proof.
  intros Ha Hb. unfold combine.
  destruct (negb (ptr_eqb (m_seq a) (m_seq b))); [discriminate|].
  destruct (Z.geb_spec (m_view_index_end a) (m_view_index_begin b)) as [H1|H1];
    [simpl; discriminate|].
  destruct (Z.geb_spec (m_view_index_end b) (m_view_index_begin a)) as [H2|H2];
    [simpl; discriminate|].
  lia.
Qed.

(** C6: two views of one buffer whose ranges [0,1) and [5,6) neither overlap
    nor touch are combined into the view [0,6) instead of being refused as
    non-adjacent. *)
Theorem combine_accepts_distant_ranges :
  let p := c_str 7 "abcdef"%string in
  let a := view_of p 0 1 in
  let b := view_of p 5 6 in
  m_view_index_end a < m_view_index_begin b /\
  combine a b = inr (view_of p 0 6) /\
  combine b a = inr (view_of p 0 6).
Proof.
  cbv zeta. split; [|split]; vm_compute; reflexivity.
Qed.

(** ** The choice of the candidate [x] *)

Section Candidate.

Variable x_values_len : Z.
Variables best_forward_x_values best_backward_x_values : vec.

Lemma candidate_lower_boundary (best : vec) (D k : Z) :
  k = - D ->
  candidate x_values_len best D k = vec_get best (Z.rem (k + 1) x_values_len).
Proof.
  intros ->. unfold candidate. rewrite Z.eqb_refl. reflexivity.
Qed.




End Candidate.




(** ** The loops of one invocation *)

Lemma at_fault (v : sequence_view) (i : Z) (f : fault) :
  at_ v i = Fault f -> exists j, f = Bad_read j.
Proof.
  unfold at_, deref. intros H.
  destruct (m_seq v) as [b|].
  - destruct ((0 <=? _) && (_ <? _)).
    + destruct (nth_error _ _); [discriminate|]. injection H as <-. eauto.
    + injection H as <-. eauto.
  - injection H as <-. eauto.
Qed.

Lemma vec_get_fault (v : vec) (i : Z) (f : fault) :
  vec_get v i = Fault f -> f = Out_of_range i (Z.of_nat (length v)).
Proof.
  unfold vec_get. destruct ((0 <=? _) && (_ <? _)); [discriminate|].
  intros H. injection H as <-. reflexivity.
Qed.

Lemma vec_set_fault (v : vec) (i x : Z) (f : fault) :
  vec_set v i x = Fault f -> f = Out_of_range i (Z.of_nat (length v)).
Proof.
  unfold vec_set. destruct ((0 <=? _) && (_ <? _)); [discriminate|].
  intros H. injection H as <-. reflexivity.
Qed.

Lemma candidate_fault (len : Z) (best : vec) (D k : Z) (f : fault) :
  candidate len best D k = Fault f -> exists i n, f = Out_of_range i n.
Proof.
  unfold candidate, bind. intros H.
  destruct (vec_get best (Z.rem (k - 1) len)) as [a|g] eqn:Ea;
    destruct (vec_get best (Z.rem (k + 1) len)) as [b|g'] eqn:Eb;
    try apply vec_get_fault in Ea; try apply vec_get_fault in Eb;
    destruct (k =? - D); destruct (negb (k =? D)); try destruct (a <? b);
    try discriminate; injection H as <-; subst; eauto.
Qed.

Lemma bind_no_fuel_fault {A B : Type} (c : outcome A) (k : A -> outcome B) :
  c <> Fault Out_of_fuel ->
  (forall a, c = Done a -> k a <> Fault Out_of_fuel) ->
  bind c k <> Fault Out_of_fuel.
Proof.
  intros Hc Hk. destruct c as [a|f]; simpl.
  - apply Hk. reflexivity.
  - intros H. apply Hc. injection H as ->. reflexivity.
Qed.

Section Loops.

Variables lhs_seq rhs_seq : sequence_view.
Variables lhs_size rhs_size max_len x_values_len w : Z.

Local Abbreviation fsnake := (forward_snake lhs_seq rhs_seq lhs_size rhs_size).
Local Abbreviation bsnake := (backward_snake lhs_seq rhs_seq lhs_size rhs_size).
Local Abbreviation floop :=
  (forward_loop lhs_seq rhs_seq lhs_size rhs_size max_len x_values_len w).
Local Abbreviation bloop :=
  (backward_loop lhs_seq rhs_seq lhs_size rhs_size max_len x_values_len w).
Local Abbreviation dloop :=
  (depth_loop lhs_seq rhs_seq lhs_size rhs_size max_len x_values_len w).

(** *** The budgets of the loops are never what stops them *)

Lemma forward_snake_fuel (n : nat) (x y : Z) :
  lhs_size - x <= Z.of_nat n -> fsnake n x y <> Fault Out_of_fuel.
Proof.
  revert x y. induction n as [|n IH]; intros x y Hn; simpl.
  - destruct (Z.ltb_spec x lhs_size); [lia|]. simpl. discriminate.
  - destruct ((x <? lhs_size) && (y <? rhs_size)); [|discriminate].
    destruct (at_ lhs_seq x) as [a|f] eqn:Ea; simpl.
    2:{ apply at_fault in Ea as [j ->]. discriminate. }
    destruct (at_ rhs_seq y) as [b|f] eqn:Eb; simpl.
    2:{ apply at_fault in Eb as [j ->]. discriminate. }
    destruct (Ascii.eqb a b); [|discriminate].
    apply IH. lia.
Qed.

Lemma backward_snake_fuel (n : nat) (x y : Z) :
  lhs_size - x <= Z.of_nat n -> bsnake n x y <> Fault Out_of_fuel.
Proof.
  revert x y. induction n as [|n IH]; intros x y Hn; simpl.
  - destruct (Z.ltb_spec x lhs_size); [lia|]. simpl. discriminate.
  - destruct ((x <? lhs_size) && (y <? rhs_size)); [|discriminate].
    destruct (at_ lhs_seq _) as [a|f] eqn:Ea; simpl.
    2:{ apply at_fault in Ea as [j ->]. discriminate. }
    destruct (at_ rhs_seq _) as [b|f] eqn:Eb; simpl.
    2:{ apply at_fault in Eb as [j ->]. discriminate. }
    destruct (Ascii.eqb a b); [|discriminate].
    apply IH. lia.
Qed.

Lemma forward_loop_fuel (n : nat) (D k : Z) (bf bb : vec) :
  D - 2 * Z.max 0 (D - lhs_size) + 1 - k <= Z.of_nat n ->
  floop n D k bf bb <> Fault Out_of_fuel.
Proof.
  revert k bf. induction n as [|n IH]; intros k bf Hn; cbn [forward_loop].
  - destruct (Z.ltb_spec k (D - 2 * Z.max 0 (D - lhs_size) + 1)); [lia|discriminate].
  - destruct (k <? D - 2 * Z.max 0 (D - lhs_size) + 1) eqn:Ek; [|discriminate].
    apply Z.ltb_lt in Ek.
    apply bind_no_fuel_fault.
    { intros H. apply candidate_fault in H as (i & m & H). discriminate. }
    intros x0 _. apply bind_no_fuel_fault.
    { apply forward_snake_fuel. lia. }
    intros [x y] _. apply bind_no_fuel_fault.
    { intros H. apply vec_set_fault in H. discriminate. }
    intros bf' _. apply bind_no_fuel_fault.
    { destruct (_ && _ && _); [|discriminate].
      apply bind_no_fuel_fault.
      { intros H. apply vec_get_fault in H. discriminate. }
      intros a _. apply bind_no_fuel_fault.
      { intros H. apply vec_get_fault in H. discriminate. }
      intros b _. discriminate. }
    intros [|] _; [discriminate|].
    apply IH. lia.
Qed.

Lemma backward_loop_fuel (n : nat) (D k : Z) (bf bb : vec) :
  D - 2 * Z.max 0 (D - lhs_size) + 1 - k <= Z.of_nat n ->
  bloop n D k bf bb <> Fault Out_of_fuel.
Proof.
  revert k bb. induction n as [|n IH]; intros k bb Hn; cbn [backward_loop].
  - destruct (Z.ltb_spec k (D - 2 * Z.max 0 (D - lhs_size) + 1)); [lia|discriminate].
  - destruct (k <? D - 2 * Z.max 0 (D - lhs_size) + 1) eqn:Ek; [|discriminate].
    apply Z.ltb_lt in Ek.
    apply bind_no_fuel_fault.
    { intros H. apply candidate_fault in H as (i & m & H). discriminate. }
    intros x0 _. apply bind_no_fuel_fault.
    { apply backward_snake_fuel. lia. }
    intros [x y] _. apply bind_no_fuel_fault.
    { intros H. apply vec_set_fault in H. discriminate. }
    intros bb' _. apply bind_no_fuel_fault.
    { destruct (_ && _ && _); [|discriminate].
      apply bind_no_fuel_fault.
      { intros H. apply vec_get_fault in H. discriminate. }
      intros a _. apply bind_no_fuel_fault.
      { intros H. apply vec_get_fault in H. discriminate. }
      intros b _. discriminate. }
    intros [|] _; [discriminate|].
    apply IH. lia.
Qed.

Lemma k_budget_enough (D : Z) :
  D - 2 * Z.max 0 (D - lhs_size) + 1 - first_k rhs_size D
  <= Z.of_nat (k_budget lhs_size rhs_size D).
Proof. unfold k_budget. lia. Qed.

Lemma depth_loop_fuel (n : nat) (D : Z) (bf bb : vec) :
  depth_bound max_len - D <= Z.of_nat n ->
  dloop n D bf bb <> Fault Out_of_fuel.
Proof.
  revert D bf bb. induction n as [|n IH]; intros D bf bb Hn; cbn [depth_loop].
  - destruct (Z.ltb_spec D (depth_bound max_len)); [lia|discriminate].
  - destruct (D <? depth_bound max_len) eqn:ED; [|discriminate].
    apply bind_no_fuel_fault.
    { apply forward_loop_fuel, k_budget_enough. }
    intros [bf' [v|]] _; [discriminate|].
    apply bind_no_fuel_fault.
    { apply backward_loop_fuel, k_budget_enough. }
    intros [bb' [v|]] _; [discriminate|].
    apply IH. lia.
Qed.

(** The loops of one invocation stop by themselves, whatever the views and
    the sizes are. *)
Lemma search_fuel :
  search lhs_seq rhs_seq lhs_size rhs_size max_len x_values_len w <> Fault Out_of_fuel.
Proof.
  unfold search. apply bind_no_fuel_fault.
  { unfold vec_make. destruct (_ <? _); discriminate. }
  intros bf _. apply bind_no_fuel_fault.
  { unfold vec_make. destruct (_ <? _); discriminate. }
  intros bb _. apply depth_loop_fuel. lia.
Qed.

(** *** The outer loop begins at most [depth_bound] iterations *)

Lemma depth_loop_iterations (n : nat) (D : Z) (bf bb : vec) (it : Z) (r : option verdict) :
  dloop n D bf bb = Done (it, r) -> D <= it <= Z.max D (depth_bound max_len).
Proof.
  revert D bf bb. induction n as [|n IH]; intros D bf bb; cbn [depth_loop].
  - destruct (Z.ltb_spec D (depth_bound max_len)); [discriminate|].
    intros H0. injection H0 as <- <-. lia.
  - destruct (Z.ltb_spec D (depth_bound max_len)) as [HD|HD].
    2:{ intros H0. injection H0 as <- <-. lia. }
    destruct (floop _ D _ bf bb) as [[bf' [v|]]|f]; simpl; try discriminate.
    { intros H0. injection H0 as <- <-. lia. }
    destruct (bloop _ D _ bf' bb) as [[bb' [v|]]|f]; simpl; try discriminate.
    { intros H0. injection H0 as <- <-. lia. }
    intros H0. apply IH in H0. lia.
Qed.

End Loops.

(** ** The first two depths of a search *)

Lemma rem2_even (a : Z) : 0 <= a -> (Z.rem a 2 =? 0) = Z.even a.
Proof.
  intros Ha. rewrite Z.rem_mod_nonneg by lia.
  destruct (Z.even a) eqn:E.
  - apply Z.even_spec in E as [k ->]. rewrite Z.mul_comm, Z.mod_mul by lia. reflexivity.
  - rewrite <- Z.negb_odd in E. apply negb_false_iff, Z.odd_spec in E as [k ->].
    rewrite Z.add_comm, Z.mul_comm, Z.mod_add by lia. reflexivity.
Qed.

Lemma rem2_odd (a : Z) : 0 <= a -> (Z.rem a 2 =? 1) = Z.odd a.
Proof.
  intros Ha. rewrite Z.rem_mod_nonneg by lia.
  destruct (Z.odd a) eqn:E.
  - apply Z.odd_spec in E as [k ->].
    rewrite Z.add_comm, Z.mul_comm, Z.mod_add by lia. reflexivity.
  - rewrite <- Z.negb_even in E. apply negb_false_iff, Z.even_spec in E as [k ->].
    rewrite Z.mul_comm, Z.mod_mul by lia. reflexivity.
Qed.

Section Depths.

Variables lhs_seq rhs_seq : sequence_view.
Variables lhs_size rhs_size : Z.

Hypothesis lhs_positive : 0 < lhs_size.
Hypothesis rhs_positive : 0 < rhs_size.

Local Abbreviation max_len := (lhs_size + rhs_size).
Local Abbreviation x_values_len := (2 * Z.min lhs_size rhs_size + 2).
Local Abbreviation w := (lhs_size - rhs_size).

Local Abbreviation fsnake := (forward_snake lhs_seq rhs_seq lhs_size rhs_size).
Local Abbreviation bsnake := (backward_snake lhs_seq rhs_seq lhs_size rhs_size).
Local Abbreviation floop :=
  (forward_loop lhs_seq rhs_seq lhs_size rhs_size max_len x_values_len w).
Local Abbreviation bloop :=
  (backward_loop lhs_seq rhs_seq lhs_size rhs_size max_len x_values_len w).
Local Abbreviation dloop :=
  (depth_loop lhs_seq rhs_seq lhs_size rhs_size max_len x_values_len w).

Local Abbreviation fresh := (repeat 0 (Z.to_nat x_values_len)).

Lemma first_k_0 : first_k rhs_size 0 = 0.
Proof. unfold first_k. lia. Qed.

Lemma first_k_1 : first_k rhs_size 1 = -1.
Proof. unfold first_k. lia. Qed.

Lemma k_budget_0 : k_budget lhs_size rhs_size 0 = 1%nat.
Proof. unfold k_budget. rewrite first_k_0. lia. Qed.

Lemma k_budget_1 : k_budget lhs_size rhs_size 1 = 3%nat.
Proof. unfold k_budget. rewrite first_k_1. lia. Qed.

Lemma forward_depth_0 (bb : vec) :
  floop (k_budget lhs_size rhs_size 0) 0 (first_k rhs_size 0) fresh bb
  = ('(x, y) <- fsnake (Z.to_nat lhs_size) 0 0 ;; Done (list_set fresh 0 x, None)).
Proof.
  rewrite k_budget_0, first_k_0. cbn [forward_loop].
  replace (0 <? 0 - 2 * Z.max 0 (0 - lhs_size) + 1) with true
    by arith_test.
  unfold forward_candidate. rewrite candidate_lower_boundary by reflexivity.
  rewrite Z.rem_small by lia. rewrite vec_get_fresh by lia.
  cbn [bind]. replace (lhs_size - 0) with lhs_size by lia.
  replace (0 - 0) with 0 by lia.
  destruct (fsnake (Z.to_nat lhs_size) 0 0) as [[x y]|f]; [|reflexivity].
  cbn [bind]. rewrite Z.rem_0_l by lia.
  rewrite vec_set_in by (rewrite repeat_length; lia).
  cbn [bind].
  replace ((Z.rem max_len 2 =? 1) && (- (0 - w) >=? - (0 - 1)) && (- (0 - w) <=? 0 - 1))
    with false.
  2:{ symmetry. apply andb_false_iff.
      destruct (Z.leb_spec (- (0 - w)) (0 - 1)); [|right; reflexivity].
      left. apply andb_false_iff. right. rewrite Z.geb_leb. apply Z.leb_gt. lia. }
  cbn [bind].
  replace (0 + 2 <? 0 - 2 * Z.max 0 (0 - lhs_size) + 1) with false
    by arith_test.
  reflexivity.
Qed.

Lemma backward_depth_0 (bf : vec) :
  Z.of_nat (length bf) = x_values_len ->
  bloop (k_budget lhs_size rhs_size 0) 0 (first_k rhs_size 0) bf fresh
  = ('(x, y) <- bsnake (Z.to_nat lhs_size) 0 0 ;;
     if (Z.even max_len) && (lhs_size =? rhs_size) && (x + nth 0 bf 0 >=? lhs_size)
     then Done (list_set fresh 0 x,
                Some (decide lhs_size rhs_size 0 (lhs_size - x) (rhs_size - y)
                             lhs_size rhs_size))
     else Done (list_set fresh 0 x, None)).
Proof.
  intros Hbf.
  rewrite k_budget_0, first_k_0. cbn [backward_loop].
  replace (0 <? 0 - 2 * Z.max 0 (0 - lhs_size) + 1) with true
    by arith_test.
  unfold backward_candidate. rewrite candidate_lower_boundary by reflexivity.
  rewrite Z.rem_small by lia. rewrite vec_get_fresh by lia.
  cbn [bind]. replace (lhs_size - 0) with lhs_size by lia.
  replace (rhs_size - (0 - 0)) with rhs_size by lia.
  replace (0 - 0) with 0 by lia.
  destruct (bsnake (Z.to_nat lhs_size) 0 0) as [[x y]|f]; [|reflexivity].
  cbn [bind]. rewrite Z.rem_0_l by lia.
  rewrite vec_set_in by (rewrite repeat_length; lia).
  cbn [bind]. change (Z.to_nat 0) with 0%nat.
  rewrite rem2_even by lia.
  replace (0 + 2 <? 0 - 2 * Z.max 0 (0 - lhs_size) + 1) with false
    by arith_test.
  destruct (Z.eqb_spec lhs_size rhs_size) as [E|E].
  - replace (- (0 - w)) with 0 by lia.
    rewrite Z.rem_0_l by lia.
    rewrite (vec_get_in (list_set _ _ _))
      by (rewrite list_set_length, repeat_length; lia).
    rewrite (vec_get_in bf) by lia.
    change (Z.to_nat 0) with 0%nat.
    rewrite list_set_nth_same by (rewrite repeat_length; lia).
    destruct (Z.even max_len); cbn; [|reflexivity].
    destruct (x + nth 0 bf 0 >=? lhs_size); reflexivity.
  - replace ((Z.even max_len) && (- (0 - w) >=? - 0) && (- (0 - w) <=? 0)) with false.
    2:{ symmetry. apply andb_false_iff.
        destruct (Z.leb_spec (- (0 - w)) 0); [|right; reflexivity].
        left. apply andb_false_iff. right. rewrite Z.geb_leb. apply Z.leb_gt. lia. }
    rewrite andb_false_r. reflexivity.
Qed.

Lemma forward_depth_1 (bf bb : vec) :
  Z.of_nat (length bf) = x_values_len ->
  floop (k_budget lhs_size rhs_size 1) 1 (first_k rhs_size 1) bf bb
  = ('(x, y) <- fsnake (Z.to_nat (lhs_size - nth 0 bf 0)) (nth 0 bf 0) (nth 0 bf 0 + 1) ;;
     Fault (Out_of_range (-1) x_values_len)).
Proof.
  intros Hbf.
  rewrite k_budget_1, first_k_1. cbn [forward_loop].
  replace (-1 <? 1 - 2 * Z.max 0 (1 - lhs_size) + 1) with true
    by arith_test.
  unfold forward_candidate. rewrite candidate_lower_boundary by reflexivity.
  change (-1 + 1) with 0. rewrite Z.rem_0_l by lia.
  rewrite (vec_get_in bf) by lia.
  cbn [bind]. change (Z.to_nat 0) with 0%nat.
  replace (nth 0 bf 0 - -1) with (nth 0 bf 0 + 1) by lia.
  destruct (fsnake _ _ _) as [[x y]|f]; [|reflexivity].
  cbn [bind].
  rewrite rem_negative_diagonal by lia.
  rewrite vec_set_negative by lia. rewrite Hbf. reflexivity.
Qed.

Lemma depth_bound_two : exists m, Z.to_nat (depth_bound max_len) = S (S m).
Proof.
  assert (H : 2 <= depth_bound max_len).
  { unfold depth_bound.
    assert (1 <= Z.quot max_len 2) by (apply Z.quot_le_lower_bound; lia).
    destruct (negb _); lia. }
  exists (Z.to_nat (depth_bound max_len - 2)). lia.
Qed.

(** What a search does on two non-empty views: the two snakes of depth 0
    decide whether the searches overlap at once; otherwise depth 1 is entered
    and its first diagonal, [k = -1], is stored at index [-1 % x_values_len],
    which is [-1]. *)
Lemma search_depths :
  search lhs_seq rhs_seq lhs_size rhs_size max_len x_values_len w
  = ('(p, _) <- fsnake (Z.to_nat lhs_size) 0 0 ;;
     '(s, s') <- bsnake (Z.to_nat lhs_size) 0 0 ;;
     if (Z.even max_len) && (lhs_size =? rhs_size) && (s + p >=? lhs_size)
     then Done (1, Some (decide lhs_size rhs_size 0 (lhs_size - s) (rhs_size - s')
                                lhs_size rhs_size))
     else '(_, _) <- fsnake (Z.to_nat (lhs_size - p)) p (p + 1) ;;
          Fault (Out_of_range (-1) x_values_len)).
Proof.
  unfold search. rewrite vec_make_nonneg by lia. cbn [bind].
  destruct depth_bound_two as [m ->]. cbn [depth_loop].
  replace (0 <? depth_bound max_len) with true.
  2:{ symmetry. apply Z.ltb_lt. destruct depth_bound_two as [m' Hm]. lia. }
  rewrite forward_depth_0.
  destruct (fsnake (Z.to_nat lhs_size) 0 0) as [[p p']|f]; [|reflexivity].
  cbn [bind].
  rewrite backward_depth_0 by (rewrite list_set_length, repeat_length; lia).
  destruct (bsnake (Z.to_nat lhs_size) 0 0) as [[s s']|f]; [|reflexivity].
  cbn [bind].
  rewrite list_set_nth_same by (rewrite repeat_length; lia).
  destruct (Z.even max_len && (lhs_size =? rhs_size) && (s + p >=? lhs_size));
    [reflexivity|].
  cbn [bind]. change (0 + 1) with 1.
  replace (1 <? depth_bound max_len) with true.
  2:{ symmetry. apply Z.ltb_lt. destruct depth_bound_two as [m' Hm]. lia. }
  rewrite forward_depth_1 by (rewrite list_set_length, repeat_length; lia).
  rewrite list_set_nth_same by (rewrite repeat_length; lia).
  destruct (fsnake _ p (p + 1)) as [[x y]|f]; reflexivity.
Qed.

End Depths.

(** ** The snakes *)

Section Snakes.

Variables lhs_seq rhs_seq : sequence_view.
Variables lhs_size rhs_size : Z.

Local Abbreviation fsnake := (forward_snake lhs_seq rhs_seq lhs_size rhs_size).
Local Abbreviation bsnake := (backward_snake lhs_seq rhs_seq lhs_size rhs_size).

(** A snake moves both coordinates by the same amount and never moves [x]
    beyond [lhs_size]. *)
Lemma forward_snake_moves (n : nat) (x y x' y' : Z) :
  fsnake n x y = Done (x', y') ->
  x <= x' <= Z.max x lhs_size /\ y' - x' = y - x.
Proof.
  revert x y. induction n as [|n IH]; intros x y; cbn [forward_snake].
  - destruct (Z.ltb_spec x lhs_size); destruct (y <? rhs_size); cbn [andb bind];
      try (intros H0; injection H0 as <- <-; lia).
    destruct (at_ lhs_seq x); cbn [bind]; [|discriminate].
    destruct (at_ rhs_seq y); cbn [bind]; [|discriminate].
    destruct (Ascii.eqb _ _); [discriminate|].
    intros H0; injection H0 as <- <-; lia.
  - destruct (Z.ltb_spec x lhs_size); destruct (y <? rhs_size); cbn [andb bind];
      try (intros H0; injection H0 as <- <-; lia).
    destruct (at_ lhs_seq x); cbn [bind]; [|discriminate].
    destruct (at_ rhs_seq y); cbn [bind]; [|discriminate].
    destruct (Ascii.eqb _ _).
    + intros H0. apply IH in H0. lia.
    + intros H0; injection H0 as <- <-; lia.
Qed.

Lemma backward_snake_moves (n : nat) (x y x' y' : Z) :
  bsnake n x y = Done (x', y') ->
  x <= x' <= Z.max x lhs_size /\ y' - x' = y - x.
Proof.
  revert x y. induction n as [|n IH]; intros x y; cbn [backward_snake].
  - destruct (Z.ltb_spec x lhs_size); destruct (y <? rhs_size); cbn [andb bind];
      try (intros H0; injection H0 as <- <-; lia).
    destruct (at_ lhs_seq _); cbn [bind]; [|discriminate].
    destruct (at_ rhs_seq _); cbn [bind]; [|discriminate].
    destruct (Ascii.eqb _ _); [discriminate|].
    intros H0; injection H0 as <- <-; lia.
  - destruct (Z.ltb_spec x lhs_size); destruct (y <? rhs_size); cbn [andb bind];
      try (intros H0; injection H0 as <- <-; lia).
    destruct (at_ lhs_seq _); cbn [bind]; [|discriminate].
    destruct (at_ rhs_seq _); cbn [bind]; [|discriminate].
    destruct (Ascii.eqb _ _).
    + intros H0. apply IH in H0. lia.
    + intros H0; injection H0 as <- <-; lia.
Qed.

Variables f g : Z -> ascii.
Hypothesis lhs_reads : reads lhs_seq lhs_size f.
Hypothesis rhs_reads : reads rhs_seq rhs_size g.

(** On readable views a forward snake returns: it has walked [t] equal
    pairs and stands on a border or on a pair that differs. *)
Lemma forward_snake_spec (n : nat) (x y : Z) :
  0 <= x -> 0 <= y -> lhs_size - x <= Z.of_nat n ->
  exists t, 0 <= t /\ fsnake n x y = Done (x + t, y + t) /\
            (forall j, 0 <= j < t -> f (x + j) = g (y + j)) /\
            (x + t < lhs_size -> y + t < rhs_size -> f (x + t) <> g (y + t)).
Proof.
  revert x y. induction n as [|n IH]; intros x y Hx Hy Hn; cbn [forward_snake].
  - replace (x <? lhs_size) with false by arith_test.
    exists 0. rewrite !Z.add_0_r. repeat split; try lia; try (intros; lia).
  - destruct (Z.ltb_spec x lhs_size) as [Hxl|Hxl];
      destruct (Z.ltb_spec y rhs_size) as [Hyr|Hyr]; cbn [andb];
      try (exists 0; rewrite !Z.add_0_r; repeat split; try lia; try (intros; lia); fail).
    rewrite lhs_reads, rhs_reads by lia. cbn [bind].
    destruct (Ascii.eqb_spec (f x) (g y)) as [E|E].
    + destruct (IH (x + 1) (y + 1)) as (t & Ht & Hs & Heq & Hstop); try lia.
      exists (t + 1). replace (x + (t + 1)) with (x + 1 + t) by lia.
      replace (y + (t + 1)) with (y + 1 + t) by lia.
      repeat split; try lia; try assumption.
      intros j Hj. destruct (Z.eq_dec j 0) as [->|Hj0].
      * rewrite !Z.add_0_r. exact E.
      * replace (x + j) with (x + 1 + (j - 1)) by lia.
        replace (y + j) with (y + 1 + (j - 1)) by lia. apply Heq. lia.
    + exists 0. rewrite !Z.add_0_r.
      repeat split; try lia; try (intros; assumption); try (intros; lia).
Qed.

Lemma backward_snake_spec (n : nat) (x y : Z) :
  0 <= x -> 0 <= y -> lhs_size - x <= Z.of_nat n ->
  exists t, 0 <= t /\ bsnake n x y = Done (x + t, y + t) /\
            (forall j, 0 <= j < t ->
                       f (lhs_size - (x + j) - 1) = g (rhs_size - (y + j) - 1)) /\
            (x + t < lhs_size -> y + t < rhs_size ->
             f (lhs_size - (x + t) - 1) <> g (rhs_size - (y + t) - 1)).
Proof.
  revert x y. induction n as [|n IH]; intros x y Hx Hy Hn; cbn [backward_snake].
  - replace (x <? lhs_size) with false by arith_test.
    exists 0. rewrite !Z.add_0_r. repeat split; try lia; try (intros; lia).
  - destruct (Z.ltb_spec x lhs_size) as [Hxl|Hxl];
      destruct (Z.ltb_spec y rhs_size) as [Hyr|Hyr]; cbn [andb];
      try (exists 0; rewrite !Z.add_0_r; repeat split; try lia; try (intros; lia); fail).
    rewrite lhs_reads, rhs_reads by lia. cbn [bind].
    destruct (Ascii.eqb_spec (f (lhs_size - x - 1)) (g (rhs_size - y - 1))) as [E|E].
    + destruct (IH (x + 1) (y + 1)) as (t & Ht & Hs & Heq & Hstop); try lia.
      exists (t + 1). replace (x + (t + 1)) with (x + 1 + t) by lia.
      replace (y + (t + 1)) with (y + 1 + t) by lia.
      repeat split; try lia; try assumption.
      intros j Hj. destruct (Z.eq_dec j 0) as [->|Hj0].
      * rewrite !Z.add_0_r. exact E.
      * replace (x + j) with (x + 1 + (j - 1)) by lia.
        replace (y + j) with (y + 1 + (j - 1)) by lia. apply Heq. lia.
    + exists 0. rewrite !Z.add_0_r.
      repeat split; try lia; try (intros; assumption); try (intros; lia).
Qed.

End Snakes.

(** ** Views of whole strings *)

Lemma chars_length (s : string) : length (chars s) = String.length s.
Proof. induction s as [|c s IH]; simpl; congruence. Qed.

Lemma string_of_list_ascii_length (l : list ascii) :
  String.length (string_of_list_ascii l) = length l.
Proof. induction l as [|c l IH]; simpl; congruence. Qed.

Lemma string_size_nonneg (s : string) : 0 <= string_size s.
Proof. unfold string_size. lia. Qed.

Lemma string_size_zero (s : string) : string_size s = 0 <-> s = EmptyString.
Proof.
  unfold string_size. destruct s; simpl; split; try reflexivity; try discriminate; lia.
Qed.

Lemma string_size_pos (s : string) : s <> EmptyString -> 0 < string_size s.
Proof.
  intros H. pose proof (string_size_nonneg s).
  destruct (Z.eq_dec (string_size s) 0) as [Z0|Z0]; [|lia].
  apply string_size_zero in Z0. contradiction.
Qed.

Lemma string_view_fits (a : Z) (s : string) :
  fits s -> string_view a s = mk_view (c_str a s) 0 (string_size s).
Proof.
  intros H. unfold fits in H. pose proof (string_size_nonneg s).
  unfold string_view, view_of. rewrite !u32_small by lia. reflexivity.
Qed.

Lemma size_string_view (a : Z) (s : string) :
  fits s -> size (string_view a s) = string_size s.
Proof.
  intros H. rewrite string_view_fits by exact H. unfold fits in H.
  pose proof (string_size_nonneg s).
  unfold size. cbn [m_view_index_end m_view_index_begin].
  rewrite usize_small; lia.
Qed.

Lemma lhs_size_of_string_view (a : Z) (s : string) :
  fits s -> lhs_size_of (string_view a s) = string_size s.
Proof.
  intros H. unfold lhs_size_of. rewrite size_string_view by exact H.
  unfold fits in H. pose proof (string_size_nonneg s).
  apply i32_small. lia.
Qed.

Lemma reads_string_view (a : Z) (s : string) :
  fits s -> reads (string_view a s) (string_size s) (char_at s).
Proof.
  intros H i Hi. rewrite string_view_fits by exact H. unfold fits in H.
  unfold at_, c_str, deref. cbn [m_seq m_view_index_begin cells].
  rewrite usize_small by lia. replace (0 + i) with i by lia.
  rewrite length_app, chars_length. cbn [length].
  unfold string_size in Hi.
  replace ((0 <=? i) && (i <? Z.of_nat (String.length s + 1))) with true.
  2:{ symmetry. apply andb_true_iff. split; [apply Z.leb_le|apply Z.ltb_lt]; lia. }
  rewrite nth_error_app1 by (rewrite chars_length; lia).
  unfold char_at.
  rewrite (nth_error_nth' _ zero) by (rewrite chars_length; lia).
  reflexivity.
Qed.

Lemma chars_inj (l r : string) : chars l = chars r -> l = r.
Proof.
  intros H. rewrite <- (string_of_list_ascii_of_string l),
              <- (string_of_list_ascii_of_string r).
  unfold chars in H. rewrite H. reflexivity.
Qed.

Lemma strings_equal (l r : string) :
  string_size l = string_size r ->
  (forall j, 0 <= j < string_size l -> char_at l j = char_at r j) ->
  l = r.
Proof.
  intros Hlen Hall. apply chars_inj.
  unfold string_size in *. rewrite <- !chars_length in *.
  apply (nth_ext _ _ zero zero); [lia|].
  intros n Hn. specialize (Hall (Z.of_nat n)). unfold char_at in Hall.
  rewrite Nat2Z.id in Hall. apply Hall. lia.
Qed.

Lemma read_chars_middle (a : Z) (pre cs post : list ascii) :
  read_chars (Some (mk_buffer a (pre ++ cs ++ post))) (Z.of_nat (length pre)) (length cs)
  = Done cs.
Proof.
  revert pre. induction cs as [|c cs IH]; intros pre; cbn [read_chars length].
  - reflexivity.
  - unfold deref. cbn [cells].
    replace ((0 <=? Z.of_nat (length pre))
             && (Z.of_nat (length pre) <? Z.of_nat (length (pre ++ (c :: cs) ++ post))))
      with true.
    2:{ symmetry. apply andb_true_iff. split; [apply Z.leb_le|apply Z.ltb_lt].
        - lia.
        - rewrite !length_app. cbn [length]. lia. }
    rewrite Nat2Z.id. rewrite nth_error_app2 by lia.
    rewrite Nat.sub_diag. cbn [app nth_error bind].
    replace (Z.of_nat (length pre) + 1) with (Z.of_nat (length (pre ++ [c])))
      by (rewrite length_app; cbn [length]; lia).
    replace (pre ++ c :: cs ++ post) with ((pre ++ [c]) ++ cs ++ post)
      by (rewrite <- app_assoc; reflexivity).
    rewrite IH. reflexivity.
Qed.

Lemma payload_string_view (a : Z) (s : string) :
  fits s -> payload (string_view a s) = Done s.
Proof.
  intros H. unfold payload. rewrite size_string_view by exact H.
  rewrite string_view_fits by exact H.
  cbn [m_seq m_view_index_begin]. unfold c_str, string_size.
  rewrite Nat2Z.id, <- chars_length.
  pose proof (read_chars_middle a [] (chars s) [zero]) as R.
  cbn [app length] in R. change (Z.of_nat 0) with 0 in R.
  unfold chars in *. rewrite R. cbn [bind].
  rewrite string_of_list_ascii_of_string. reflexivity.
Qed.

(** ** What [diff] does on every pair of strings that fits *)

Lemma decide_identical (L : Z) :
  0 < L -> decide L L 0 (L - L) (L - L) L L = Split 0 0 L L.
Proof.
  intros HL. unfold decide. rewrite Z.sub_diag.
  replace (0 =? L) with false by arith_test.
  reflexivity.
Qed.

Lemma search_strings (a b : Z) (l r : string) :
  fits l -> fits r -> l <> EmptyString -> r <> EmptyString ->
  search_views (string_view a l) (string_view b r)
  = if string_dec l r
    then Done (1, Some (Split 0 0 (string_size l) (string_size r)))
    else Fault (Out_of_range (-1) (2 * Z.min (string_size l) (string_size r) + 2)).
Proof.
  intros Hl Hr Hle Hre.
  pose proof (string_size_pos l Hle) as HL.
  pose proof (string_size_pos r Hre) as HR.
  unfold search_views, max_len_of, x_values_len_of, rhs_size_of, lhs_size_of.
  rewrite !size_string_view by assumption.
  unfold fits in Hl, Hr.
  rewrite !(i32_small (string_size _)) by lia.
  rewrite !i32_small by lia.
  rewrite search_depths by assumption.
  pose proof (reads_string_view a l Hl) as Rl.
  pose proof (reads_string_view b r Hr) as Rr.
  destruct (forward_snake_spec _ _ _ _ _ _ Rl Rr (Z.to_nat (string_size l)) 0 0)
    as (p & Hp & Ep & Heqp & Hstopp); try lia.
  destruct (backward_snake_spec _ _ _ _ _ _ Rl Rr (Z.to_nat (string_size l)) 0 0)
    as (s & Hs & Es & Heqs & Hstops); try lia.
  pose proof (forward_snake_moves _ _ _ _ _ _ _ _ _ Ep) as [Bp _].
  pose proof (backward_snake_moves _ _ _ _ _ _ _ _ _ Es) as [Bs _].
  rewrite Ep, Es. cbn [bind]. rewrite !Z.add_0_l in *.
  destruct (string_dec l r) as [E|E].
  - subst r.
    assert (p = string_size l).
    { destruct (Z.lt_ge_cases p (string_size l)) as [C|C]; [|lia].
      exfalso. apply (Hstopp C C). reflexivity. }
    assert (s = string_size l).
    { destruct (Z.lt_ge_cases s (string_size l)) as [C|C]; [|lia].
      exfalso. apply (Hstops C C). reflexivity. }
    subst p s.
    replace (Z.even (string_size l + string_size l)) with true.
    2:{ symmetry. replace (string_size l + string_size l) with (2 * string_size l) by lia.
        rewrite Z.even_mul. reflexivity. }
    rewrite Z.eqb_refl.
    replace (string_size l + string_size l >=? string_size l) with true
      by arith_test.
    cbn [andb]. rewrite decide_identical by lia. reflexivity.
  - replace (Z.even (string_size l + string_size r)
             && (string_size l =? string_size r) && (s + p >=? string_size l)) with false.
    2:{ symmetry. apply not_true_is_false. intros C.
        apply andb_true_iff in C as [C C3]. apply andb_true_iff in C as [_ C2].
        apply Z.eqb_eq in C2. rewrite Z.geb_leb in C3. apply Z.leb_le in C3.
        apply E. apply strings_equal; [exact C2|].
        destruct (Z.lt_ge_cases p (string_size l)) as [Hlt|Hge].
        - exfalso. apply Hstopp; try lia.
          specialize (Heqs (string_size l - p - 1)).
          rewrite <- C2 in Heqs.
          replace (string_size l - (0 + (string_size l - p - 1)) - 1) with p in Heqs by lia.
          apply Heqs. lia.
        - intros j Hj. specialize (Heqp j). rewrite Z.add_0_l in Heqp.
          apply Heqp. lia. }
    destruct (forward_snake_spec _ _ _ _ _ _ Rl Rr
                (Z.to_nat (string_size l - p)) p (p + 1))
      as (t & _ & Et & _); try lia.
    rewrite Et. reflexivity.
Qed.

Lemma rhs_size_of_string_view (a : Z) (s : string) :
  fits s -> rhs_size_of (string_view a s) = string_size s.
Proof. exact (lhs_size_of_string_view a s). Qed.

Lemma size_sub_view (v : sequence_view) (b e : Z) :
  size (sub_view v b e) = usize (u32 e - u32 b).
Proof.
  unfold size, sub_view, usize. cbn [m_view_index_begin m_view_index_end].
  rewrite <- Zminus_mod. f_equal. lia.
Qed.

Lemma _diff_step (fuel : nat) (lhs_seq rhs_seq : sequence_view) (patches : list patch) :
  _diff (S fuel) lhs_seq rhs_seq patches
  = if (lhs_size_of lhs_seq >? 0) && (rhs_size_of rhs_seq >? 0) then
      '(_, r) <- search_views lhs_seq rhs_seq ;;
      match r with
      | Some (Split x y u v) =>
          patches <- _diff fuel (sub_view lhs_seq 0 x) (sub_view rhs_seq 0 y) patches ;;
          _diff fuel (sub_view lhs_seq u (lhs_size_of lhs_seq))
                (sub_view rhs_seq v (rhs_size_of rhs_seq)) patches
      | Some Tail_addition =>
          _diff fuel null_view
                (sub_view rhs_seq (lhs_size_of lhs_seq) (rhs_size_of rhs_seq)) patches
      | Some Tail_deletion =>
          _diff fuel (sub_view lhs_seq (rhs_size_of rhs_seq) (lhs_size_of lhs_seq))
                null_view patches
      | Some Nothing_left => Done patches
      | None => Done patches
      end
    else if lhs_size_of lhs_seq >? 0 then
      p <- make_deletion lhs_seq ;; Done (patches ++ [p])
    else if rhs_size_of rhs_seq >? 0 then
      p <- make_addition rhs_seq ;; Done (patches ++ [p])
    else Done patches.
Proof. reflexivity. Qed.

Lemma diff_leaf_nothing (n : nat) (lhs_seq rhs_seq : sequence_view) (patches : list patch) :
  size lhs_seq = 0 -> size rhs_seq = 0 ->
  _diff (S n) lhs_seq rhs_seq patches = Done patches.
Proof.
  intros Hl Hr. rewrite _diff_step. unfold lhs_size_of, rhs_size_of. rewrite Hl, Hr.
  reflexivity.
Qed.

Lemma index_begin_string_view (a : Z) (s : string) : index_begin (string_view a s) = 0.
Proof. reflexivity. Qed.

Lemma _diff_strings (n : nat) (l r : string) :
  fits l -> fits r ->
  _diff (S (S n)) (string_view lhs_addr l) (string_view rhs_addr r) [] = diff_expected l r.
Proof.
  intros Hl Hr. unfold diff_expected.
  pose proof (string_size_nonneg l) as Nl. pose proof (string_size_nonneg r) as Nr.
  rewrite _diff_step.
  rewrite lhs_size_of_string_view, rhs_size_of_string_view by assumption.
  destruct (string_dec l EmptyString) as [El|El];
    destruct (string_dec r EmptyString) as [Er|Er].
  - subst. reflexivity.
  - subst l. change (string_size EmptyString) with 0. cbn [Z.gtb Z.compare andb].
    pose proof (string_size_pos r Er) as HR.
    replace (string_size r >? 0) with true
      by arith_test.
    unfold make_addition. rewrite payload_string_view by assumption.
    reflexivity.
  - subst r. change (string_size EmptyString) with 0.
    pose proof (string_size_pos l El) as HL.
    replace (string_size l >? 0) with true
      by arith_test.
    cbn [Z.gtb Z.compare andb].
    unfold make_deletion. rewrite payload_string_view by assumption.
    reflexivity.
  - pose proof (string_size_pos l El) as HL.
    pose proof (string_size_pos r Er) as HR.
    replace (string_size l >? 0) with true
      by arith_test.
    replace (string_size r >? 0) with true
      by arith_test.
    cbn [andb]. rewrite search_strings by assumption.
    destruct (string_dec l r) as [E|E]; [|reflexivity].
    cbn [bind].
    rewrite diff_leaf_nothing.
    + cbn [bind]. apply diff_leaf_nothing.
      * rewrite size_sub_view, Z.sub_diag. reflexivity.
      * rewrite size_sub_view, Z.sub_diag. reflexivity.
    + rewrite size_sub_view, Z.sub_diag. reflexivity.
    + rewrite size_sub_view, Z.sub_diag. reflexivity.
Qed.

(** [diff] on strings that fit: one patch when one side is empty, no patch on
    equal strings, and the out-of-range store of depth 1 on all others. *)
Lemma diff_behaviour (l r : string) :
  fits l -> fits r -> diff l r = diff_expected l r.
Proof.
  intros Hl Hr. unfold diff, fuel_for. apply _diff_strings; assumption.
Qed.

(** ** Patches have a payload (current engine) *)

Lemma read_chars_length (p : pointer) (from : Z) (n : nat) (cs : list ascii) :
  read_chars p from n = Done cs -> length cs = n.
Proof.
  revert from cs. induction n as [|n IH]; intros from cs; cbn [read_chars].
  - intros H. injection H as <-. reflexivity.
  - destruct (deref p from); cbn [bind]; [|discriminate].
    destruct (read_chars p (from + 1) n) as [cs'|] eqn:E; cbn [bind]; [|discriminate].
    intros H. injection H as <-. cbn [length]. f_equal. eapply IH. exact E.
Qed.

Lemma payload_nonempty (seq : sequence_view) (s : string) :
  i32 (size seq) > 0 -> payload seq = Done s -> s <> EmptyString.
Proof.
  intros Hpos. unfold payload.
  destruct (read_chars _ _ _) as [cs|] eqn:E; cbn [bind]; [|discriminate].
  intros H. injection H as <-. apply read_chars_length in E.
  assert (Hs : size seq <> 0).
  { intros Z0. rewrite Z0 in Hpos. vm_compute in Hpos. discriminate. }
  pose proof (usize_range (m_view_index_end seq - m_view_index_begin seq)) as R.
  fold (size seq) in R.
  destruct cs as [|c cs]; [|discriminate].
  cbn [length] in E. lia.
Qed.

Lemma make_deletion_has_payload (seq : sequence_view) (p : patch) :
  lhs_size_of seq > 0 -> make_deletion seq = Done p -> has_payload p.
Proof.
  intros Hpos. unfold make_deletion.
  destruct (payload seq) as [s|] eqn:E; cbn [bind]; [|discriminate].
  intros H. injection H as <-. eapply payload_nonempty; eassumption.
Qed.

Lemma make_addition_has_payload (seq : sequence_view) (p : patch) :
  rhs_size_of seq > 0 -> make_addition seq = Done p -> has_payload p.
Proof.
  intros Hpos. unfold make_addition.
  destruct (payload seq) as [s|] eqn:E; cbn [bind]; [|discriminate].
  intros H. injection H as <-. eapply payload_nonempty; eassumption.
Qed.

(** Whatever the views and the budget, the constructor of [_diff] only
    appends patches that have a payload. *)
Lemma _diff_payloads (fuel : nat) :
  forall lhs_seq rhs_seq patches result,
    Forall has_payload patches ->
    _diff fuel lhs_seq rhs_seq patches = Done result ->
    Forall has_payload result.
Proof.
  induction fuel as [|fuel IH]; intros lhs_seq rhs_seq patches result Hps.
  - discriminate.
  - rewrite _diff_step.
    destruct (lhs_size_of lhs_seq >? 0) eqn:EL;
      destruct (rhs_size_of rhs_seq >? 0) eqn:ER; cbn [andb].
    + destruct (search_views lhs_seq rhs_seq) as [[it [[x y u v| | |]|]]|];
        cbn [bind]; try discriminate.
      * destruct (_diff fuel (sub_view lhs_seq 0 x) (sub_view rhs_seq 0 y) patches)
          as [ps1|] eqn:E1; cbn [bind]; [|discriminate].
        intros E2. eapply IH; [|exact E2]. eapply IH; [|exact E1]. exact Hps.
      * apply IH. exact Hps.
      * apply IH. exact Hps.
      * intros H. injection H as <-. exact Hps.
      * intros H. injection H as <-. exact Hps.
    + destruct (make_deletion lhs_seq) as [p|] eqn:E; cbn [bind]; [|discriminate].
      intros H. injection H as <-. apply Forall_app. split; [exact Hps|].
      constructor; [|constructor].
      eapply make_deletion_has_payload; [|exact E]. apply Z.gtb_gt. exact EL.
    + destruct (make_addition rhs_seq) as [p|] eqn:E; cbn [bind]; [|discriminate].
      intros H. injection H as <-. apply Forall_app. split; [exact Hps|].
      constructor; [|constructor].
      eapply make_addition_has_payload; [|exact E]. apply Z.gtb_gt. exact ER.
    + intros H. injection H as <-. exact Hps.
Qed.

(** The current engine keeps the invariant of the patch record: every patch
    it returns, on any two strings, has a non-empty payload. *)
Lemma diff_payloads (l r : string) (ps : list patch) :
  diff l r = Done ps -> Forall has_payload ps.
Proof.
  unfold diff. apply _diff_payloads. constructor.
Qed.

(** ** Runs that complete *)

Lemma diff_expected_done (l r : string) (ps : list patch) :
  diff_expected l r = Done ps ->
  (l = r /\ ps = []) \/
  (l = EmptyString /\ r <> EmptyString /\ ps = [mk_patch Addition 0 r]) \/
  (l <> EmptyString /\ r = EmptyString /\ ps = [mk_patch Deletion 0 l]).
Proof.
  unfold diff_expected.
  destruct (string_dec l EmptyString) as [El|El];
    destruct (string_dec r EmptyString) as [Er|Er]; intros H.
  - injection H as <-. left. subst. split; reflexivity.
  - injection H as <-. right. left. repeat split; assumption.
  - injection H as <-. right. right. repeat split; assumption.
  - destruct (string_dec l r) as [E|E]; [|discriminate].
    injection H as <-. left. split; [exact E|reflexivity].
Qed.

Lemma list_eqb_refl (a : list ascii) : list_eqb a a = true.
Proof. unfold list_eqb. destruct (list_eq_dec ascii_dec a a); congruence. Qed.

Lemma edit_distance_list_same (l : list ascii) : edit_distance_list l l = 0%nat.
Proof.
  induction l as [|a l IH]; cbn [edit_distance_list]; [reflexivity|].
  rewrite Ascii.eqb_refl. exact IH.
Qed.

Lemma edit_distance_list_nil_r (l : list ascii) : edit_distance_list l [] = length l.
Proof. destruct l; reflexivity. Qed.

(** A run of [diff] that completes returns a script that rebuilds the right
    string and whose payloads add up to the edit distance. *)
Lemma diff_done_sound (l r : string) (ps : list patch) :
  fits l -> fits r -> diff l r = Done ps ->
  apply_patches ps l = Some r /\ total_payload ps = edit_distance l r.
Proof.
  intros Hl Hr H. rewrite diff_behaviour in H by assumption.
  apply diff_expected_done in H as [[-> ->]|[(-> & Hr' & ->)|(Hl' & -> & ->)]].
  - split.
    + unfold apply_patches. cbn [replay skipn app].
      unfold chars. rewrite string_of_list_ascii_of_string. reflexivity.
    + unfold edit_distance. rewrite edit_distance_list_same. reflexivity.
  - split.
    + unfold apply_patches. cbn. rewrite app_nil_r.
      unfold chars. rewrite string_of_list_ascii_of_string. reflexivity.
    + unfold edit_distance, total_payload. cbn [fold_right m_str chars
        list_ascii_of_string edit_distance_list].
      rewrite chars_length. lia.
  - split.
    + unfold apply_patches. cbn [replay m_op m_str m_begin Z.to_nat skipn Nat.leb andb].
      rewrite firstn_all, list_eqb_refl.
      cbn [replay Nat.sub firstn Nat.add app].
      rewrite skipn_all. reflexivity.
    + unfold edit_distance, total_payload. cbn [fold_right m_str].
      change (chars EmptyString) with (@nil ascii).
      rewrite edit_distance_list_nil_r, chars_length. lia.
Qed.

(** ** Termination *)

Lemma depth_bound_ceiling (m : Z) : 0 <= m -> depth_bound m = (m + 1) / 2 + 1.
Proof.
  intros Hm. unfold depth_bound.
  rewrite Z.quot_div_nonneg by lia. rewrite Z.rem_mod_nonneg by lia.
  pose proof (Z.div_mod m 2 ltac:(lia)) as E.
  pose proof (Z.mod_pos_bound m 2 ltac:(lia)) as B.
  destruct (Z.eqb_spec (m mod 2) 0) as [H0|H0]; cbn [negb].
  - assert ((m + 1) / 2 = m / 2); [|lia].
    symmetry. apply (Z.div_unique (m + 1) 2 (m / 2) 1); lia.
  - assert ((m + 1) / 2 = m / 2 + 1); [|lia].
    symmetry. apply (Z.div_unique (m + 1) 2 (m / 2 + 1) 0); lia.
Qed.

Lemma search_views_iterations (lhs_seq rhs_seq : sequence_view) (it : Z) (r : option verdict) :
  sizes_fit lhs_seq rhs_seq ->
  search_views lhs_seq rhs_seq = Done (it, r) ->
  it <= (size lhs_seq + size rhs_seq + 1) / 2 + 1.
Proof.
  intros [Hl Hr]. unfold search_views, search, max_len_of, lhs_size_of, rhs_size_of.
  rewrite !(i32_small (size _)) by lia. rewrite (i32_small (_ + _)) by lia.
  destruct (vec_make _) as [bf|]; cbn [bind]; [|discriminate].
  intros H. apply depth_loop_iterations in H.
  rewrite depth_bound_ceiling in H by lia.
  assert (0 <= (size lhs_seq + size rhs_seq + 1) / 2) by (apply Z.div_pos; lia).
  lia.
Qed.

Lemma search_views_split (lhs_seq rhs_seq : sequence_view) (it x y u v : Z) :
  sizes_fit lhs_seq rhs_seq ->
  search_views lhs_seq rhs_seq = Done (it, Some (Split x y u v)) ->
  size (sub_view lhs_seq 0 x) + size (sub_view rhs_seq 0 y)
  < size lhs_seq + size rhs_seq /\
  size (sub_view lhs_seq u (lhs_size_of lhs_seq))
  + size (sub_view rhs_seq v (rhs_size_of rhs_seq))
  < size lhs_seq + size rhs_seq.
Proof.
  intros [Hl Hr]. unfold search_views, max_len_of, x_values_len_of, lhs_size_of, rhs_size_of.
  rewrite !(i32_small (size _)) by lia. rewrite !i32_small by lia.
  rewrite search_depths by lia.
  destruct (forward_snake _ _ _ _ (Z.to_nat (size lhs_seq)) 0 0) as [[p p']|];
    cbn [bind]; [|discriminate].
  destruct (backward_snake _ _ _ _ (Z.to_nat (size lhs_seq)) 0 0) as [[s s']|] eqn:Es;
    cbn [bind]; [|discriminate].
  apply backward_snake_moves in Es as [Bs Ds].
  destruct (Z.even _ && (size lhs_seq =? size rhs_seq) && _) eqn:C.
  2:{ destruct (forward_snake _ _ _ _ _ p (p + 1)) as [[a b]|]; discriminate. }
  apply andb_true_iff in C as [C _]. apply andb_true_iff in C as [_ C].
  apply Z.eqb_eq in C.
  unfold decide. change (0 >? 1) with false. cbn [orb].
  destruct (Z.eqb_spec (size lhs_seq - s) (size lhs_seq)) as [E1|E1]; cbn [negb andb].
  { destruct (_ >? _); [discriminate|]. destruct (_ <? _); discriminate. }
  destruct (Z.eqb_spec (size rhs_seq - s') (size rhs_seq)) as [E2|E2]; cbn [negb].
  { destruct (_ >? _); [discriminate|]. destruct (_ <? _); discriminate. }
  intros H. injection H as _ <- <- <- <-.
  rewrite !size_sub_view.
  rewrite !u32_small by lia. rewrite !usize_small by lia. lia.
Qed.

(** A call on a null view and a residual tail needs no nested call. *)
Lemma tail_calls_are_leaves (n : nat) (seq : sequence_view) (patches : list patch) :
  _diff (S n) null_view seq patches = _diff 1 null_view seq patches /\
  _diff (S n) seq null_view patches = _diff 1 seq null_view patches /\
  _diff 1 null_view seq patches <> Fault Out_of_fuel /\
  _diff 1 seq null_view patches <> Fault Out_of_fuel.
Proof.
  rewrite !_diff_step.
  change (lhs_size_of null_view) with 0. change (rhs_size_of null_view) with 0.
  change (0 >? 0) with false. rewrite andb_false_r. cbn [andb].
  repeat split.
  - destruct (rhs_size_of seq >? 0); [|discriminate].
    unfold make_addition, payload.
    destruct (read_chars _ _ _) eqn:E; cbn [bind]; [discriminate|].
    intros H. injection H as ->. revert E. generalize (m_view_index_begin seq).
    induction (Z.to_nat (size seq)) as [|k IH]; intros from; cbn [read_chars].
    + discriminate.
    + unfold deref at 1.
      destruct (m_seq seq); [|discriminate].
      destruct (_ && _); [|discriminate].
      destruct (nth_error _ _); [|discriminate]. cbn [bind].
      destruct (read_chars _ (from + 1) k) eqn:E; cbn [bind]; [discriminate|].
      intros H. injection H as ->. apply (IH _ E).
  - destruct (lhs_size_of seq >? 0); [|discriminate].
    unfold make_deletion, payload.
    destruct (read_chars _ _ _) eqn:E; cbn [bind]; [discriminate|].
    intros H. injection H as ->. revert E. generalize (m_view_index_begin seq).
    induction (Z.to_nat (size seq)) as [|k IH]; intros from; cbn [read_chars].
    + discriminate.
    + unfold deref at 1.
      destruct (m_seq seq); [|discriminate].
      destruct (_ && _); [|discriminate].
      destruct (nth_error _ _); [|discriminate]. cbn [bind].
      destruct (read_chars _ (from + 1) k) eqn:E; cbn [bind]; [discriminate|].
      intros H. injection H as ->. apply (IH _ E).
Qed.

(** * The properties of the specification *)

(** C1: on the two strings of the demonstration program, [diff] returns no
    patch list at all, so none that rebuilds the right string: the run stops
    at the out-of-range store of depth 1. *)
Theorem demo_strings_not_rebuilt :
  diff "goore wormen" "guur feesten" = Fault (Out_of_range (-1) 26) /\
  ~ exists ps, diff "goore wormen" "guur feesten" = Done ps /\
               apply_patches ps "goore wormen" = Some "guur feesten"%string.
Proof.
  assert (E : diff "goore wormen" "guur feesten" = Fault (Out_of_range (-1) 26))
    by (vm_compute; reflexivity).
  split; [exact E|]. intros (ps & H & _). rewrite E in H. discriminate.
Qed.

(** C2: on "abc" and "abd", at edit distance 2, [diff] returns no patch list,
    so none of minimal total length. *)
Theorem no_minimal_script_for_abc_abd :
  edit_distance "abc" "abd" = 2%nat /\
  ~ exists ps, diff "abc" "abd" = Done ps /\
               total_payload ps = edit_distance "abc" "abd".
Proof.
  split; [reflexivity|]. intros (ps & H & _). vm_compute in H. discriminate.
Qed.

(** C3, as amended: [diff S S] returns the empty patch list, for every
    string [S] of fewer than [2 ^ 30 - 1] symbols, the lengths that fit the
    32-bit counters of the engine. *)
Theorem diff_identity (S : string) : fits S -> diff S S = Done [].
Proof.
  intros H. rewrite diff_behaviour by assumption. unfold diff_expected.
  destruct (string_dec S EmptyString); [reflexivity|].
  destruct (string_dec S S); [reflexivity|contradiction].
Qed.

Lemma diff_identity_witness :
  fits "goore wormen" /\ diff "goore wormen" "goore wormen" = Done [].
Proof.
  split; [vm_compute; reflexivity|].
  apply (diff_identity "goore wormen"). vm_compute. reflexivity.
Defined.

(** Strings of [2 ^ 30 - 1] symbols or more, up to [2 ^ 31 - 2]: the sizes
    still fit an [int32_t], but [x_values_len = 2 * min(L, R) + 2] does not,
    and the rolling arrays are requested with a negative length. *)
Lemma diff_beyond_fits (l r : string) :
  2 ^ 30 - 1 <= string_size l < 2 ^ 31 - 1 ->
  2 ^ 30 - 1 <= string_size r < 2 ^ 31 - 1 ->
  diff l r
  = Fault (Length_error (2 * Z.min (string_size l) (string_size r) + 2 - 2 ^ 32)).
Proof.
  intros Hl Hr. unfold diff, fuel_for.
  change (2 + String.length l + String.length r)%nat
    with (S (S (String.length l + String.length r))).
  rewrite _diff_step.
  assert (Sl : size (string_view lhs_addr l) = string_size l).
  { unfold string_view, view_of, size. cbn [m_view_index_begin m_view_index_end].
    rewrite !u32_small by lia. rewrite usize_small; lia. }
  assert (Sr : size (string_view rhs_addr r) = string_size r).
  { unfold string_view, view_of, size. cbn [m_view_index_begin m_view_index_end].
    rewrite !u32_small by lia. rewrite usize_small; lia. }
  assert (Ll : lhs_size_of (string_view lhs_addr l) = string_size l).
  { unfold lhs_size_of. rewrite Sl. apply i32_small. lia. }
  assert (Rr : rhs_size_of (string_view rhs_addr r) = string_size r).
  { unfold rhs_size_of. rewrite Sr. apply i32_small. lia. }
  rewrite Ll, Rr.
  replace (string_size l >? 0) with true by arith_test.
  replace (string_size r >? 0) with true by arith_test.
  cbn [andb]. unfold search_views, search, x_values_len_of. rewrite Ll, Rr.
  assert (X : i32 (2 * Z.min (string_size l) (string_size r) + 2)
              = 2 * Z.min (string_size l) (string_size r) + 2 - 2 ^ 32).
  { unfold i32.
    rewrite <- (Z.mod_unique (2 * Z.min (string_size l) (string_size r) + 2 + 2 ^ 31)
                             (2 ^ 32) 1
                             (2 * Z.min (string_size l) (string_size r) + 2 - 2 ^ 31));
      lia. }
  rewrite X. unfold vec_make.
  replace (2 * Z.min (string_size l) (string_size r) + 2 - 2 ^ 32 <? 0) with true
    by arith_test.
  reflexivity.
Qed.

Lemma huge_string_size : string_size huge_string = 2 ^ 30 - 1.
Proof.
  unfold string_size, huge_string.
  rewrite string_of_list_ascii_length, repeat_length. apply Z2Nat.id. lia.
Qed.

(** C3, as stated, fails on a string of [2 ^ 30 - 1] symbols: [x_values_len]
    is [2 ^ 31], which an [int32_t] holds as [- 2 ^ 31], and the first rolling
    array is requested with that length; no patch list is returned. *)
Lemma diff_identity_fails_on_huge_string :
  diff huge_string huge_string = Fault (Length_error (- 2 ^ 31)) /\
  diff huge_string huge_string <> Done [].
Proof.
  assert (E : diff huge_string huge_string = Fault (Length_error (- 2 ^ 31))).
  { rewrite diff_beyond_fits by (rewrite huge_string_size; lia).
    rewrite huge_string_size, Z.min_id. reflexivity. }
  split; [exact E|]. rewrite E. discriminate.
Qed.

(** C4: on "ab" and "cd", which share no symbol, [diff] does not return the
    two patches that delete "ab" and add "cd", in either order: it returns no
    patch list. *)
Theorem disjoint_strings_get_no_patches :
  diff "ab" "cd" = Fault (Out_of_range (-1) 6) /\
  diff "ab" "cd" <> Done [mk_patch Deletion 0 "ab"; mk_patch Addition 0 "cd"] /\
  diff "ab" "cd" <> Done [mk_patch Addition 0 "cd"; mk_patch Deletion 0 "ab"].
Proof.
  assert (E : diff "ab" "cd" = Fault (Out_of_range (-1) 6)) by (vm_compute; reflexivity).
  rewrite E. repeat split; discriminate.
Qed.

(** The degenerate cases of C5 in the current engine. *)
Lemma diff_degenerate :
  diff "" "" = Done [] /\
  diff "" "abc" = Done [mk_patch Addition 0 "abc"] /\
  diff "abc" "" = Done [mk_patch Deletion 0 "abc"].
Proof. repeat split; vm_compute; reflexivity. Qed.

(** C5: in the first revision, [Diff::diff] on two empty strings returns one
    Addition at offset 0 with an empty payload instead of no patch; the two
    other degenerate cases are as stated. *)
Theorem first_revision_degenerate :
  Diff.diff "" "" = Done [mk_patch Addition 0 ""] /\
  Diff.diff "" "abc" = Done [mk_patch Addition 0 "abc"] /\
  Diff.diff "abc" "" = Done [mk_patch Deletion 0 "abc"].
Proof. repeat split; vm_compute; reflexivity. Qed.

(** C7: on two different non-empty strings, the first diagonal of depth 1,
    [k = -1], is stored in the forward array at index [-1 % x_values_len],
    which is [-1] and lies outside [0, 2 * min(L,R) + 2). *)
Theorem first_store_of_depth_one_out_of_range (l r : string) :
  fits l -> fits r -> l <> EmptyString -> r <> EmptyString -> l <> r ->
  Z.rem (-1) (2 * Z.min (string_size l) (string_size r) + 2) = -1 /\
  diff l r = Fault (Out_of_range (-1) (2 * Z.min (string_size l) (string_size r) + 2)).
Proof.
  intros Hl Hr El Er E. split.
  - pose proof (string_size_nonneg l). pose proof (string_size_nonneg r).
    apply rem_negative_diagonal. lia.
  - rewrite diff_behaviour by assumption. unfold diff_expected.
    destruct (string_dec l EmptyString); [contradiction|].
    destruct (string_dec r EmptyString); [contradiction|].
    destruct (string_dec l r); [contradiction|reflexivity].
Qed.

Lemma first_store_of_depth_one_witness :
  Z.rem (-1) 4 = -1 /\ diff "a" "b" = Fault (Out_of_range (-1) 4).
Proof.
  apply (first_store_of_depth_one_out_of_range "a" "b").
  - vm_compute. reflexivity.
  - vm_compute. reflexivity.
  - discriminate.
  - discriminate.
  - discriminate.
Defined.


(** C9: in the first revision, [Diff::diff] on two equal strings returns two
    Addition patches whose payload is empty. *)
Theorem first_revision_empty_payloads :
  Diff.diff "abc" "abc" = Done [mk_patch Addition 0 ""; mk_patch Addition 3 ""] /\
  exists p ps, Diff.diff "abc" "abc" = Done ps /\ In p ps /\ String.length (m_str p) = 0%nat.
Proof.
  assert (E : Diff.diff "abc" "abc"
              = Done [mk_patch Addition 0 ""; mk_patch Addition 3 ""])
    by (vm_compute; reflexivity).
  split; [exact E|].
  exists (mk_patch Addition 0 ""), [mk_patch Addition 0 ""; mk_patch Addition 3 ""].
  split; [exact E|]. split; [left; reflexivity|reflexivity].
Qed.

(** * Further properties of the code *)

(** ** sequence_view: windows of windows *)

Lemma usize_add_idemp_l (a b : Z) : usize (usize a + b) = usize (a + b).
Proof. unfold usize. apply Zplus_mod_idemp_l. Qed.

(** X1: a window [b, e) taken from any view has [e - b] elements, whatever
    the range of the parent view is. *)
Theorem sub_view_size (v : sequence_view) (b e : Z) :
  0 <= b <= e -> e < 2 ^ 32 -> size (sub_view v b e) = e - b.
Proof.
  intros Hb He. rewrite size_sub_view.
  rewrite !u32_small by lia. apply usize_small. lia.
Qed.

Lemma sub_view_size_witness :
  size (sub_view (string_view 1 "hello world") 6 11) = 5.
Proof.
  apply (sub_view_size (string_view 1 "hello world") 6 11); lia.
Defined.

(** X2: position [i] of a window that starts at [b] is position [b + i] of
    the parent view; [operator[]] does not look at the end of the window. *)
Theorem sub_view_at (v : sequence_view) (b e i : Z) :
  0 <= b < 2 ^ 32 -> at_ (sub_view v b e) i = at_ v (b + i).
Proof.
  intros Hb. unfold at_, sub_view. cbn [m_seq m_view_index_begin].
  rewrite u32_small by lia. rewrite usize_add_idemp_l.
  f_equal. f_equal. lia.
Qed.

Lemma sub_view_at_witness :
  at_ (sub_view (string_view 1 "hello world") 6 8) 4
  = at_ (string_view 1 "hello world") (6 + 4).
Proof.
  apply (sub_view_at (string_view 1 "hello world") 6 8 4). lia.
Defined.

(** X3: a window of a window is a window of the parent, shifted by the begin
    of the first window; the end of the first window plays no part. *)
Theorem sub_view_sub_view (v : sequence_view) (a b c d : Z) :
  0 <= a -> 0 <= c -> 0 <= d -> a + c < 2 ^ 32 -> a + d < 2 ^ 32 ->
  sub_view (sub_view v a b) c d = sub_view v (a + c) (a + d).
Proof.
  intros Ha Hc Hd Hac Had. unfold sub_view. cbn [m_seq m_view_index_begin].
  rewrite !u32_small by lia. rewrite !usize_add_idemp_l.
  f_equal; f_equal; lia.
Qed.

Lemma sub_view_sub_view_witness :
  sub_view (sub_view (string_view 1 "hello world") 2 9) 1 4
  = sub_view (string_view 1 "hello world") (2 + 1) (2 + 4).
Proof.
  apply (sub_view_sub_view (string_view 1 "hello world") 2 9 1 4); lia.
Defined.

(** ** combine *)

Lemma ptr_eqb_sym (p q : pointer) : ptr_eqb p q = ptr_eqb q p.
Proof.
  destruct p as [b|], q as [c|]; cbn [ptr_eqb]; try reflexivity.
  apply Z.eqb_sym.
Qed.

Lemma ptr_eqb_refl (p : pointer) : ptr_eqb p p = true.
Proof. destruct p as [b|]; cbn [ptr_eqb]; [apply Z.eqb_refl|reflexivity]. Qed.

(** X4: two views of one buffer, each with [begin <= end], are always
    combined, however far apart their ranges are. *)
Theorem combine_same_buffer_succeeds (a b : sequence_view) :
  ptr_eqb (m_seq a) (m_seq b) = true ->
  m_view_index_begin a <= m_view_index_end a ->
  m_view_index_begin b <= m_view_index_end b ->
  combine a b
  = inr (view_of (m_seq a)
                 (Z.min (m_view_index_begin a) (m_view_index_begin b))
                 (Z.max (m_view_index_end a) (m_view_index_end b))).
Proof.
  intros Hp Ha Hb. unfold combine. rewrite Hp. cbn [negb].
  destruct (Z.geb_spec (m_view_index_end a) (m_view_index_begin b)) as [H1|H1];
    [reflexivity|].
  destruct (Z.geb_spec (m_view_index_end b) (m_view_index_begin a)) as [H2|H2];
    [reflexivity|].
  lia.
Qed.

Lemma combine_same_buffer_succeeds_witness :
  combine (view_of (c_str 7 "abcdefghij") 0 2) (view_of (c_str 7 "abcdefghij") 8 10)
  = inr (view_of (c_str 7 "abcdefghij") 0 10).
Proof.
  apply (combine_same_buffer_succeeds (view_of (c_str 7 "abcdefghij") 0 2)
                                      (view_of (c_str 7 "abcdefghij") 8 10)).
  - reflexivity.
  - vm_compute. discriminate.
  - vm_compute. discriminate.
Defined.

(** X5: a view with [0 <= begin <= end] combined with itself is returned
    unchanged exactly when its end is below [2 ^ 32]: the constructor that
    builds the result takes its bounds as [uint32_t]. *)
Theorem combine_self (a : sequence_view) :
  0 <= m_view_index_begin a <= m_view_index_end a ->
  (combine a a = inr a <-> m_view_index_end a < 2 ^ 32).
Proof.
  intros H. unfold combine. rewrite ptr_eqb_refl. cbn [negb].
  replace (m_view_index_end a >=? m_view_index_begin a) with true by arith_test.
  cbn [orb].
  rewrite Z.min_id, Z.max_id. unfold view_of. destruct a as [p b e].
  cbn [m_seq m_view_index_begin m_view_index_end] in *.
  split.
  - intros E. injection E as Eb Ee.
    pose proof (Z.mod_pos_bound e (2 ^ 32) ltac:(lia)) as B.
    unfold u32 in Ee. lia.
  - intros E. rewrite !u32_small by lia. reflexivity.
Qed.

Lemma combine_self_witness :
  combine (view_of (c_str 7 "abcdef") 1 4) (view_of (c_str 7 "abcdef") 1 4)
  = inr (view_of (c_str 7 "abcdef") 1 4).
Proof.
  apply (combine_self (view_of (c_str 7 "abcdef") 1 4)).
  - vm_compute. split; discriminate.
  - vm_compute. reflexivity.
Defined.

(** X6: [combine] does not depend on the order of its operands: both orders
    fail with the same error or return views with the same range. *)
Theorem combine_symmetric (a b : sequence_view) :
  match combine a b, combine b a with
  | inr c, inr d =>
      m_view_index_begin c = m_view_index_begin d /\
      m_view_index_end c = m_view_index_end d
  | inl e, inl e' => e = e'
  | _, _ => False
  end.
Proof.
  unfold combine. rewrite (ptr_eqb_sym (m_seq b) (m_seq a)).
  destruct (ptr_eqb (m_seq a) (m_seq b)); cbn [negb]; [|reflexivity].
  rewrite (orb_comm (m_view_index_end b >=? m_view_index_begin a)).
  destruct ((m_view_index_end a >=? m_view_index_begin b)
            || (m_view_index_end b >=? m_view_index_begin a)); [|reflexivity].
  cbn [view_of m_view_index_begin m_view_index_end].
  rewrite Z.min_comm, Z.max_comm. split; reflexivity.
Qed.

(** ** Patches made from a view, and what is printed *)

Lemma read_chars_window (b : buffer) (k n : nat) :
  (k + n <= length (cells b))%nat ->
  read_chars (Some b) (Z.of_nat k) n = Done (firstn n (skipn k (cells b))).
Proof.
  intros H. destruct b as [a cs]. cbn [cells] in *.
  pose proof (read_chars_middle a (firstn k cs) (firstn n (skipn k cs))
                                (skipn n (skipn k cs))) as R.
  rewrite (firstn_skipn n (skipn k cs)), (firstn_skipn k cs) in R.
  rewrite !length_firstn, length_skipn in R.
  rewrite !Nat.min_l in R by lia. exact R.
Qed.

Lemma window_length (seq : sequence_view) (b : buffer) :
  within_buffer seq b ->
  length (window seq b) = Z.to_nat (m_view_index_end seq - m_view_index_begin seq).
Proof.
  intros (_ & H1 & H2 & _). unfold window.
  rewrite length_firstn, length_skipn. lia.
Qed.

Lemma payload_within_buffer (seq : sequence_view) (b : buffer) :
  within_buffer seq b -> payload seq = Done (string_of_list_ascii (window seq b)).
Proof.
  intros (Hp & H1 & H2 & H3). unfold payload, size, window. rewrite Hp.
  rewrite usize_small by lia.
  rewrite <- (Z2Nat.id (m_view_index_begin seq)) at 1 by lia.
  rewrite read_chars_window by lia. reflexivity.
Qed.

(** X7: from a view that lies inside its buffer, [make_addition] and
    [make_deletion] build the patch whose offset is the begin of the view and
    whose payload is a copy of exactly the cells the view covers. *)
Theorem make_patch_within_buffer (seq : sequence_view) (b : buffer) :
  within_buffer seq b ->
  make_addition seq
  = Done (mk_patch Addition (m_view_index_begin seq)
                   (string_of_list_ascii (window seq b))) /\
  make_deletion seq
  = Done (mk_patch Deletion (m_view_index_begin seq)
                   (string_of_list_ascii (window seq b))).
Proof.
  intros H. unfold make_addition, make_deletion.
  rewrite (payload_within_buffer seq b H). split; reflexivity.
Qed.

Lemma make_patch_within_buffer_witness :
  make_addition (sub_view (string_view 1 "hello world") 6 11)
  = Done (mk_patch Addition 6 "world") /\
  make_deletion (sub_view (string_view 1 "hello world") 6 11)
  = Done (mk_patch Deletion 6 "world").
Proof.
  apply (make_patch_within_buffer
           (sub_view (string_view 1 "hello world") 6 11)
           (mk_buffer 1 (list_ascii_of_string "hello world" ++ [zero]))).
  split; [reflexivity|]. vm_compute. repeat split; discriminate.
Defined.

Lemma print_view_window (seq : sequence_view) (b : buffer) :
  within_buffer seq b -> print_view seq = Done (string_of_list_ascii (window seq b)).
Proof.
  intros (Hp & H1 & H2 & H3). unfold print_view, window. rewrite Hp.
  rewrite <- (Z2Nat.id (m_view_index_begin seq)) at 1 by lia.
  rewrite read_chars_window by lia. reflexivity.
Qed.

(** X8: printing a view that lies inside its buffer writes exactly the cells
    the view covers, the text [make_addition] would copy into a patch. *)
Theorem print_view_within_buffer (seq : sequence_view) (b : buffer) :
  within_buffer seq b ->
  print_view seq = Done (string_of_list_ascii (window seq b)) /\
  exists p, make_addition seq = Done p /\ print_view seq = Done (m_str p).
Proof.
  intros H. pose proof (print_view_window seq b H) as E.
  split; [exact E|].
  exists (mk_patch Addition (m_view_index_begin seq) (string_of_list_ascii (window seq b))).
  split; [|exact E].
  unfold make_addition. rewrite (payload_within_buffer seq b H). reflexivity.
Qed.

Lemma print_view_within_buffer_witness :
  print_view (sub_view (string_view 1 "hello world") 0 5) = Done "hello"%string.
Proof.
  assert (H : within_buffer (sub_view (string_view 1 "hello world") 0 5)
                            (mk_buffer 1 (list_ascii_of_string "hello world" ++ [zero]))).
  { split; [reflexivity|]. vm_compute. repeat split; discriminate. }
  exact (proj1 (print_view_within_buffer _ _ H)).
Defined.

(** X9: the line printed for a patch made from a view shows the index range
    of the view, [begin:end], and then the text the view prints. *)
Theorem printed_patch_shows_view (seq : sequence_view) (b : buffer) :
  within_buffer seq b ->
  exists p text,
    make_deletion seq = Done p /\ print_view seq = Done text /\
    print_patch p
    = ("Patch Deletion: [" ++ decimal (m_view_index_begin seq) ++ ":"
       ++ decimal (m_view_index_end seq) ++ "] - " ++ text)%string.
Proof.
  intros H. pose proof H as (Hp & H1 & H2 & H3).
  exists (mk_patch Deletion (m_view_index_begin seq)
                   (string_of_list_ascii (window seq b))),
         (string_of_list_ascii (window seq b)).
  split; [unfold make_deletion; rewrite (payload_within_buffer seq b H); reflexivity|].
  split; [apply (print_view_window seq b H)|].
  unfold print_patch. cbn [m_op m_begin m_str].
  rewrite string_of_list_ascii_length, (window_length seq b H).
  rewrite Z2Nat.id by lia.
  replace (m_view_index_begin seq + (m_view_index_end seq - m_view_index_begin seq))
    with (m_view_index_end seq) by lia.
  rewrite usize_small by lia. reflexivity.
Qed.

Lemma printed_patch_shows_view_witness :
  exists p text,
    make_deletion (sub_view (string_view 1 "hello world") 6 11) = Done p /\
    print_view (sub_view (string_view 1 "hello world") 6 11) = Done text /\
    print_patch p
    = ("Patch Deletion: [" ++ decimal 6 ++ ":" ++ decimal 11 ++ "] - " ++ text)%string.
Proof.
  apply (printed_patch_shows_view
           (sub_view (string_view 1 "hello world") 6 11)
           (mk_buffer 1 (list_ascii_of_string "hello world" ++ [zero]))).
  split; [reflexivity|]. vm_compute. repeat split; discriminate.
Defined.

Lemma append_separator_inj (c : ascii) (s s' t t' : string) :
  ~ In c (chars s) -> ~ In c (chars s') ->
  (s ++ String c t)%string = (s' ++ String c t')%string ->
  s = s' /\ t = t'.
Proof.
  revert s'. induction s as [|a s IH]; intros [|a' s'] Hs Hs' E; cbn in E.
  - injection E as ->. split; reflexivity.
  - injection E as -> _. exfalso. apply Hs'. left. reflexivity.
  - injection E as -> _. exfalso. apply Hs. left. reflexivity.
  - injection E as -> E.
    destruct (IH s') as [-> ->]; try assumption.
    + intros C. apply Hs. right. exact C.
    + intros C. apply Hs'. right. exact C.
    + split; reflexivity.
Qed.

Lemma decimal_digits (z : Z) :
  ~ In ":"%char (chars (decimal z)) /\ ~ In "]"%char (chars (decimal z)).
Proof.
  unfold decimal. generalize (N.to_uint (Z.to_N z)) as d.
  induction d as [|d [IH1 IH2]|d [IH1 IH2]|d [IH1 IH2]|d [IH1 IH2]|d [IH1 IH2]
                  |d [IH1 IH2]|d [IH1 IH2]|d [IH1 IH2]|d [IH1 IH2]|d [IH1 IH2]];
    cbn; split; try tauto;
    intros [C|C]; try discriminate C; auto.
Qed.

Lemma decimal_inj (z z' : Z) : 0 <= z -> 0 <= z' -> decimal z = decimal z' -> z = z'.
Proof.
  intros Hz Hz' E. unfold decimal in E.
  apply (f_equal DecimalString.NilEmpty.uint_of_string) in E.
  rewrite !DecimalString.NilEmpty.usu in E. injection E as E.
  apply DecimalN.Unsigned.to_uint_inj in E.
  apply Z2N.inj in E; assumption.
Qed.

(** X10: two patches with non-negative offsets that print alike are the same
    patch: the printed line determines the operation, the offset and the
    payload. *)
Theorem print_patch_injective (p q : patch) :
  0 <= m_begin p -> 0 <= m_begin q ->
  print_patch p = print_patch q -> p = q.
Proof.
  destruct p as [op b str], q as [op' b' str']. cbn [m_begin].
  intros Hb Hb'. unfold print_patch. cbn [m_op m_begin m_str].
  pose proof (decimal_digits (usize (b + Z.of_nat (String.length str)))) as [_ De].
  pose proof (decimal_digits (usize (b' + Z.of_nat (String.length str')))) as [_ De'].
  revert De De'.
  generalize (decimal (usize (b + Z.of_nat (String.length str)))) as e.
  generalize (decimal (usize (b' + Z.of_nat (String.length str')))) as e'.
  intros e' e De De'.
  pose proof (decimal_digits b) as [Db _].
  pose proof (decimal_digits b') as [Db' _].
  pose proof (decimal_inj b b' Hb Hb') as Inj.
  revert Db Db' Inj.
  generalize (decimal b) as d. generalize (decimal b') as d'.
  intros d' d Dd Dd' Inj E.
  assert (Colon : forall x y : string,
             (d ++ ":" ++ x)%string = (d' ++ ":" ++ y)%string -> d = d' /\ x = y).
  { intros x y. apply append_separator_inj; assumption. }
  assert (Bracket : forall x y : string,
             (e ++ String "]" x)%string = (e' ++ String "]" y)%string -> x = y).
  { intros x y H. apply (append_separator_inj "]" e e' x y) in H; tauto. }
  destruct op, op'; cbn in E; try discriminate E;
    injection E as E; apply Colon in E as [Ed E];
    apply Bracket in E; injection E as ->;
    rewrite (Inj Ed); reflexivity.
Qed.

Lemma print_patch_injective_witness :
  mk_patch Deletion 12 "abc" = mk_patch Deletion 12 "abc".
Proof.
  apply (print_patch_injective (mk_patch Deletion 12 "abc") (mk_patch Deletion 12 "abc")).
  - vm_compute. discriminate.
  - vm_compute. discriminate.
  - reflexivity.
Defined.

(** X11: a view of a buffer whose end does not exceed its begin prints
    nothing, while its [size()], an unsigned difference, is
    [2 ^ 64 - (begin - end)] as soon as the end is below the begin. *)
Theorem reversed_view_prints_nothing (seq : sequence_view) :
  m_seq seq <> None ->
  0 <= m_view_index_end seq < m_view_index_begin seq ->
  m_view_index_begin seq < 2 ^ 64 ->
  print_view seq = Done EmptyString /\
  size seq = 2 ^ 64 - (m_view_index_begin seq - m_view_index_end seq).
Proof.
  intros Hp H1 H2. split.
  - unfold print_view. destruct (m_seq seq); [|contradiction].
    replace (Z.to_nat (m_view_index_end seq - m_view_index_begin seq)) with 0%nat by lia.
    reflexivity.
  - unfold size, usize.
    symmetry. apply (Z.mod_unique _ _ (-1)); lia.
Qed.

Lemma reversed_view_prints_nothing_witness :
  print_view (view_of (c_str 1 "abcdef") 5 3) = Done EmptyString /\
  size (view_of (c_str 1 "abcdef") 5 3) = 2 ^ 64 - (5 - 3).
Proof.
  apply (reversed_view_prints_nothing (view_of (c_str 1 "abcdef") 5 3)).
  - discriminate.
  - vm_compute. split; [discriminate|reflexivity].
  - vm_compute. reflexivity.
Defined.


(** ** The current engine on whole strings *)

(** X12: when exactly one of the two strings is empty, [diff] returns one
    patch at offset 0 that carries the whole other string: an Addition when
    the left string is empty, a Deletion when the right one is. *)
Theorem diff_one_side_empty (s : string) :
  fits s -> s <> EmptyString ->
  diff EmptyString s = Done [mk_patch Addition 0 s] /\
  diff s EmptyString = Done [mk_patch Deletion 0 s].
Proof.
  intros Hs Hne.
  assert (He : fits EmptyString) by (vm_compute; reflexivity).
  rewrite !diff_behaviour by assumption. unfold diff_expected.
  destruct (string_dec s EmptyString); [contradiction|].
  destruct (string_dec EmptyString EmptyString); [|contradiction].
  split; reflexivity.
Qed.

Lemma diff_one_side_empty_witness :
  diff "" "guur feesten" = Done [mk_patch Addition 0 "guur feesten"] /\
  diff "guur feesten" "" = Done [mk_patch Deletion 0 "guur feesten"].
Proof.
  apply (diff_one_side_empty "guur feesten").
  - vm_compute. reflexivity.
  - discriminate.
Defined.

(** ** The constructor of [_diff] and the vector it is given *)

(** X13: a call of the constructor leaves the patches it is given in front
    and appends its own: the result on any vector is that vector followed by
    the result on an empty one. *)
Theorem _diff_accumulates (fuel : nat) :
  forall lhs_seq rhs_seq patches,
    _diff fuel lhs_seq rhs_seq patches
    = (added <- _diff fuel lhs_seq rhs_seq [] ;; Done (patches ++ added)).
Proof.
  induction fuel as [|fuel IH]; intros lhs_seq rhs_seq patches.
  - reflexivity.
  - rewrite !_diff_step.
    destruct ((lhs_size_of lhs_seq >? 0) && (rhs_size_of rhs_seq >? 0)).
    + destruct (search_views lhs_seq rhs_seq) as [[it [[x y u v| | |]|]]|];
        cbn [bind]; try reflexivity.
      * rewrite (IH _ _ patches).
        destruct (_diff fuel (sub_view lhs_seq 0 x) (sub_view rhs_seq 0 y) [])
          as [first|]; cbn [bind]; [|reflexivity].
        rewrite (IH _ _ (patches ++ first)), (IH _ _ first).
        destruct (_diff fuel _ _ []) as [second|]; cbn [bind]; [|reflexivity].
        rewrite app_assoc. reflexivity.
      * apply IH.
      * apply IH.
      * rewrite app_nil_r. reflexivity.
      * rewrite app_nil_r. reflexivity.
    + destruct (lhs_size_of lhs_seq >? 0).
      * destruct (make_deletion lhs_seq); reflexivity.
      * destruct (rhs_size_of rhs_seq >? 0).
        -- destruct (make_addition rhs_seq); reflexivity.
        -- cbn [bind]. rewrite app_nil_r. reflexivity.
Qed.

(** X14: whatever the two views are, every patch a call of the constructor
    appends has a non-empty payload. *)
Theorem _diff_appends_payloads (fuel : nat) (lhs_seq rhs_seq : sequence_view)
        (patches result : list patch) :
  _diff fuel lhs_seq rhs_seq patches = Done result ->
  exists added, result = patches ++ added /\ Forall has_payload added.
Proof.
  revert lhs_seq rhs_seq patches result.
  induction fuel as [|fuel IH]; intros lhs_seq rhs_seq patches result; [discriminate|].
  rewrite _diff_step.
  destruct (lhs_size_of lhs_seq >? 0) eqn:EL;
    destruct (rhs_size_of rhs_seq >? 0) eqn:ER; cbn [andb].
  - destruct (search_views lhs_seq rhs_seq) as [[it [[x y u v| | |]|]]|];
      cbn [bind]; try discriminate.
    + destruct (_diff fuel (sub_view lhs_seq 0 x) (sub_view rhs_seq 0 y) patches)
        as [ps1|] eqn:E1; cbn [bind]; [|discriminate].
      intros E2. apply IH in E1 as (a1 & -> & F1). apply IH in E2 as (a2 & -> & F2).
      exists (a1 ++ a2). rewrite app_assoc. split; [reflexivity|].
      apply Forall_app. split; assumption.
    + apply IH.
    + apply IH.
    + intros H. injection H as <-. exists []. rewrite app_nil_r. split; constructor.
    + intros H. injection H as <-. exists []. rewrite app_nil_r. split; constructor.
  - destruct (make_deletion lhs_seq) as [p|] eqn:E; cbn [bind]; [|discriminate].
    intros H. injection H as <-. exists [p]. split; [reflexivity|].
    constructor; [|constructor].
    eapply make_deletion_has_payload; [|exact E]. apply Z.gtb_gt. exact EL.
  - destruct (make_addition rhs_seq) as [p|] eqn:E; cbn [bind]; [|discriminate].
    intros H. injection H as <-. exists [p]. split; [reflexivity|].
    constructor; [|constructor].
    eapply make_addition_has_payload; [|exact E]. apply Z.gtb_gt. exact ER.
  - intros H. injection H as <-. exists []. rewrite app_nil_r. split; constructor.
Qed.

Lemma _diff_appends_payloads_witness :
  exists added,
    [mk_patch Addition 7 "x"; mk_patch Deletion 0 "abc"]
    = [mk_patch Addition 7 "x"] ++ added /\ Forall has_payload added.
Proof.
  apply (_diff_appends_payloads 3 (string_view lhs_addr "abc") (string_view rhs_addr "")
                                [mk_patch Addition 7 "x"]).
  vm_compute. reflexivity.
Defined.

(** X15: the sizes are narrowed to [int32_t]: two views of at least
    [2 ^ 31] and less than [2 ^ 32] elements get a negative size, are taken
    for empty, and the call returns without appending a patch. *)
Theorem oversized_views_taken_for_empty (n : nat) (lhs_seq rhs_seq : sequence_view)
        (patches : list patch) :
  2 ^ 31 <= size lhs_seq < 2 ^ 32 -> 2 ^ 31 <= size rhs_seq < 2 ^ 32 ->
  lhs_size_of lhs_seq < 0 /\ rhs_size_of rhs_seq < 0 /\
  _diff (S n) lhs_seq rhs_seq patches = Done patches.
Proof.
  intros Hl Hr.
  assert (El : lhs_size_of lhs_seq = size lhs_seq - 2 ^ 32).
  { unfold lhs_size_of, i32.
    rewrite <- (Z.mod_unique (size lhs_seq + 2 ^ 31) (2 ^ 32) 1 (size lhs_seq - 2 ^ 31));
      lia. }
  assert (Er : rhs_size_of rhs_seq = size rhs_seq - 2 ^ 32).
  { unfold rhs_size_of, i32.
    rewrite <- (Z.mod_unique (size rhs_seq + 2 ^ 31) (2 ^ 32) 1 (size rhs_seq - 2 ^ 31));
      lia. }
  split; [lia|]. split; [lia|].
  rewrite _diff_step.
  replace (lhs_size_of lhs_seq >? 0) with false by arith_test.
  replace (rhs_size_of rhs_seq >? 0) with false by arith_test.
  reflexivity.
Qed.

Lemma oversized_views_taken_for_empty_witness :
  lhs_size_of (view_of (c_str 1 "a") 0 (2 ^ 31)) < 0 /\
  rhs_size_of (view_of (c_str 2 "b") 0 (2 ^ 31 + 5)) < 0 /\
  _diff 1 (view_of (c_str 1 "a") 0 (2 ^ 31)) (view_of (c_str 2 "b") 0 (2 ^ 31 + 5)) []
  = Done [].
Proof.
  apply (oversized_views_taken_for_empty 0 (view_of (c_str 1 "a") 0 (2 ^ 31))
                                         (view_of (c_str 2 "b") 0 (2 ^ 31 + 5)) []).
  - vm_compute. split; [discriminate|reflexivity].
  - vm_compute. split; [discriminate|reflexivity].
Defined.

(** ** The first revision on whole strings *)

Lemma Diff_diff_step (fuel : nat) (lhs_seq rhs_seq : sequence_view) :
  Diff._diff (S fuel) lhs_seq rhs_seq
  = if (lhs_size_of lhs_seq >? 0) && (rhs_size_of rhs_seq >? 0) then
      '(_, r) <- search_views lhs_seq rhs_seq ;;
      match r with
      | Some (Split x y u v) =>
          forward_subdiff <-
            Diff._diff fuel (sub_view lhs_seq 0 x) (sub_view rhs_seq 0 y) ;;
          backward_subdiff <-
            Diff._diff fuel (sub_view lhs_seq u (lhs_size_of lhs_seq))
                       (sub_view rhs_seq v (rhs_size_of rhs_seq)) ;;
          Done (forward_subdiff ++ backward_subdiff)
      | Some Tail_addition =>
          Diff._diff fuel null_view
                     (sub_view rhs_seq (lhs_size_of lhs_seq) (rhs_size_of rhs_seq))
      | Some Tail_deletion =>
          Diff._diff fuel (sub_view lhs_seq (rhs_size_of rhs_seq) (lhs_size_of lhs_seq))
                     null_view
      | Some Nothing_left => Done []
      | None => Done []
      end
    else if lhs_size_of lhs_seq >? 0 then
      p <- make_deletion lhs_seq ;; Done [p]
    else
      p <- make_addition rhs_seq ;; Done [p].
Proof. reflexivity. Qed.

Lemma Diff_leaf_empty (n : nat) (lhs_seq rhs_seq : sequence_view) :
  size lhs_seq = 0 -> size rhs_seq = 0 ->
  Diff._diff (S n) lhs_seq rhs_seq
  = Done [mk_patch Addition (m_view_index_begin rhs_seq) EmptyString].
Proof.
  intros Hl Hr. rewrite Diff_diff_step. unfold lhs_size_of, rhs_size_of.
  rewrite Hl, Hr. change (i32 0 >? 0) with false. cbn [andb].
  unfold make_addition, payload. rewrite Hr. reflexivity.
Qed.

Lemma Diff_diff_strings (l r : string) :
  fits l -> fits r ->
  Diff.diff l r
  = if string_dec l EmptyString then Done [mk_patch Addition 0 r]
    else if string_dec r EmptyString then Done [mk_patch Deletion 0 l]
    else if string_dec l r
         then Done [mk_patch Addition 0 EmptyString;
                    mk_patch Addition (string_size r) EmptyString]
         else Fault (Out_of_range (-1) (2 * Z.min (string_size l) (string_size r) + 2)).
Proof.
  intros Hl Hr. unfold Diff.diff, fuel_for.
  change (2 + String.length l + String.length r)%nat
    with (S (S (String.length l + String.length r))).
  rewrite Diff_diff_step.
  rewrite lhs_size_of_string_view, rhs_size_of_string_view by assumption.
  destruct (string_dec l EmptyString) as [El|El].
  - subst l. change (string_size EmptyString) with 0. cbn [Z.gtb Z.compare andb].
    unfold make_addition. rewrite payload_string_view by assumption. reflexivity.
  - pose proof (string_size_pos l El) as HL.
    replace (string_size l >? 0) with true by arith_test.
    destruct (string_dec r EmptyString) as [Er|Er].
    + subst r. change (string_size EmptyString) with 0. cbn [Z.gtb Z.compare andb].
      unfold make_deletion. rewrite payload_string_view by assumption. reflexivity.
    + pose proof (string_size_pos r Er) as HR.
      replace (string_size r >? 0) with true by arith_test.
      cbn [andb]. rewrite search_strings by assumption.
      destruct (string_dec l r) as [E|E]; [|reflexivity].
      cbn [bind]. unfold fits in Hr.
      rewrite !Diff_leaf_empty
        by (rewrite size_sub_view, Z.sub_diag; reflexivity).
      cbn [bind app sub_view m_view_index_begin string_view view_of].
      rewrite !u32_small by lia. rewrite !usize_small by lia.
      reflexivity.
Qed.

(** X16: on two equal non-empty strings the first revision returns two
    Additions with an empty payload, at offset 0 and at the length of the
    string. *)
Theorem first_revision_on_equal_strings (s : string) :
  fits s -> s <> EmptyString ->
  Diff.diff s s = Done [mk_patch Addition 0 EmptyString;
                        mk_patch Addition (string_size s) EmptyString].
Proof.
  intros Hs Hne. rewrite Diff_diff_strings by assumption.
  destruct (string_dec s EmptyString); [contradiction|].
  destruct (string_dec s s); [reflexivity|contradiction].
Qed.

Lemma first_revision_on_equal_strings_witness :
  Diff.diff "goore wormen" "goore wormen"
  = Done [mk_patch Addition 0 ""; mk_patch Addition 12 ""].
Proof.
  apply (first_revision_on_equal_strings "goore wormen").
  - vm_compute. reflexivity.
  - discriminate.
Defined.

(** X17: the first revision never returns an empty patch list: on strings
    that fit, a completed run holds at least one patch, also for two equal
    or two empty strings. *)
Theorem first_revision_never_empty (l r : string) :
  fits l -> fits r -> Diff.diff l r <> Done [].
Proof.
  intros Hl Hr. rewrite Diff_diff_strings by assumption.
  destruct (string_dec l EmptyString); [discriminate|].
  destruct (string_dec r EmptyString); [discriminate|].
  destruct (string_dec l r); discriminate.
Qed.

Lemma first_revision_never_empty_witness : Diff.diff "" "" <> Done [].
Proof.
  apply (first_revision_never_empty "" ""); vm_compute; reflexivity.
Defined.



(** ** The two snakes *)

(** X19: on views that can be read, the forward snake started at [(x, y)]
    returns after walking the longest run of equal pairs: all [t] pairs it
    passed are equal, and it stands on the border of a view or on a pair
    that differs. *)
Theorem forward_snake_longest_run (lhs_seq rhs_seq : sequence_view)
        (lhs_size rhs_size : Z) (f g : Z -> ascii) (x y : Z) :
  reads lhs_seq lhs_size f -> reads rhs_seq rhs_size g ->
  0 <= x -> 0 <= y ->
  exists t, 0 <= t /\
    forward_snake lhs_seq rhs_seq lhs_size rhs_size (Z.to_nat (lhs_size - x)) x y
    = Done (x + t, y + t) /\
    (forall j, 0 <= j < t -> f (x + j) = g (y + j)) /\
    (x + t < lhs_size -> y + t < rhs_size -> f (x + t) <> g (y + t)).
Proof.
  intros Rl Rr Hx Hy.
  apply (forward_snake_spec lhs_seq rhs_seq lhs_size rhs_size f g Rl Rr); lia.
Qed.

Lemma forward_snake_longest_run_witness :
  exists t, 0 <= t /\
    forward_snake (string_view 1 "abcde") (string_view 2 "xbcdy") 5 5
                  (Z.to_nat (5 - 1)) 1 1
    = Done (1 + t, 1 + t) /\
    (forall j, 0 <= j < t -> char_at "abcde" (1 + j) = char_at "xbcdy" (1 + j)) /\
    (1 + t < 5 -> 1 + t < 5 -> char_at "abcde" (1 + t) <> char_at "xbcdy" (1 + t)).
Proof.
  apply (forward_snake_longest_run (string_view 1 "abcde") (string_view 2 "xbcdy") 5 5
                                   (char_at "abcde") (char_at "xbcdy") 1 1).
  - apply (reads_string_view 1 "abcde"). vm_compute. reflexivity.
  - apply (reads_string_view 2 "xbcdy"). vm_compute. reflexivity.
  - lia.
  - lia.
Defined.

(** X20: the backward snake does the same from the ends of the two views:
    the [t] pairs it passed, counted from the last positions, are equal, and
    it stands on the border of a view or on a pair that differs. *)
Theorem backward_snake_longest_run (lhs_seq rhs_seq : sequence_view)
        (lhs_size rhs_size : Z) (f g : Z -> ascii) (x y : Z) :
  reads lhs_seq lhs_size f -> reads rhs_seq rhs_size g ->
  0 <= x -> 0 <= y ->
  exists t, 0 <= t /\
    backward_snake lhs_seq rhs_seq lhs_size rhs_size (Z.to_nat (lhs_size - x)) x y
    = Done (x + t, y + t) /\
    (forall j, 0 <= j < t ->
               f (lhs_size - (x + j) - 1) = g (rhs_size - (y + j) - 1)) /\
    (x + t < lhs_size -> y + t < rhs_size ->
     f (lhs_size - (x + t) - 1) <> g (rhs_size - (y + t) - 1)).
Proof.
  intros Rl Rr Hx Hy.
  apply (backward_snake_spec lhs_seq rhs_seq lhs_size rhs_size f g Rl Rr); lia.
Qed.

Lemma backward_snake_longest_run_witness :
  exists t, 0 <= t /\
    backward_snake (string_view 1 "abcde") (string_view 2 "xcde") 5 4
                   (Z.to_nat (5 - 0)) 0 0
    = Done (0 + t, 0 + t) /\
    (forall j, 0 <= j < t ->
               char_at "abcde" (5 - (0 + j) - 1) = char_at "xcde" (4 - (0 + j) - 1)) /\
    (0 + t < 5 -> 0 + t < 4 ->
     char_at "abcde" (5 - (0 + t) - 1) <> char_at "xcde" (4 - (0 + t) - 1)).
Proof.
  apply (backward_snake_longest_run (string_view 1 "abcde") (string_view 2 "xcde") 5 4
                                    (char_at "abcde") (char_at "xcde") 0 0).
  - apply (reads_string_view 1 "abcde"). vm_compute. reflexivity.
  - apply (reads_string_view 2 "xcde"). vm_compute. reflexivity.
  - lia.
  - lia.
Defined.

(** ** The base cases on arbitrary views *)

(** X21: the offset of a leaf patch is the begin of the view in the backing
    sequence, not a position relative to the view: against an empty view, a
    view of less than [2 ^ 31] cells inside its buffer yields one patch at
    its own begin index whose payload is the cells it covers. *)
Theorem leaf_patch_offset_is_absolute (n : nat) (empty seq : sequence_view) (b : buffer)
        (patches : list patch) :
  size empty = 0 -> within_buffer seq b ->
  0 < m_view_index_end seq - m_view_index_begin seq < 2 ^ 31 ->
  _diff (S n) empty seq patches
  = Done (patches ++ [mk_patch Addition (m_view_index_begin seq)
                               (string_of_list_ascii (window seq b))]) /\
  _diff (S n) seq empty patches
  = Done (patches ++ [mk_patch Deletion (m_view_index_begin seq)
                               (string_of_list_ascii (window seq b))]).
Proof.
  intros He Hw Hs. pose proof Hw as (_ & H1 & H2 & H3).
  assert (Es : i32 (size seq) = m_view_index_end seq - m_view_index_begin seq).
  { unfold size. rewrite usize_small by lia. apply i32_small. lia. }
  rewrite !_diff_step. unfold lhs_size_of, rhs_size_of. rewrite He, Es.
  change (i32 0 >? 0) with false. rewrite andb_false_r. cbn [andb].
  replace (m_view_index_end seq - m_view_index_begin seq >? 0) with true by arith_test.
  unfold make_addition, make_deletion. rewrite (payload_within_buffer seq b Hw).
  split; reflexivity.
Qed.

Lemma leaf_patch_offset_is_absolute_witness :
  _diff 1 null_view (sub_view (string_view 1 "hello world") 6 11) []
  = Done [mk_patch Addition 6 "world"] /\
  _diff 1 (sub_view (string_view 1 "hello world") 6 11) null_view []
  = Done [mk_patch Deletion 6 "world"].
Proof.
  apply (leaf_patch_offset_is_absolute
           0 null_view (sub_view (string_view 1 "hello world") 6 11)
           (mk_buffer 1 (list_ascii_of_string "hello world" ++ [zero])) []).
  - reflexivity.
  - split; [reflexivity|]. vm_compute. repeat split; discriminate.
  - vm_compute. split; reflexivity.
Defined.
